(** * News publishing application: path generator, comments, dashboard

    A shallow embedding of three pieces of the application:
    - the [PathGenerator] class of the news actions (slug derivation and
      disambiguation against a set of used paths);
    - [addComment] / [deleteComment] of the comment actions, over an explicit
      store with transactions;
    - [calculateTrend], [formatLogAction] and the activity feed of
      [getDashboardData]. *)

From Stdlib Require Import ZArith NArith Ascii Floats.
From stdpp Require Import base decidable option list gmap strings pretty sorting.

(** ** JavaScript string primitives

    A JavaScript string is a sequence of UTF-16 code units.  The model reads a
    Rocq [ascii] as the code unit with the same number, so it covers exactly
    the strings whose code units are below 256 (Latin-1). *)
Module JS.

Definition code (c : ascii) : N := N_of_ascii c.

(** [String.prototype.length] as a number. *)
Definition len (s : string) : Z := Z.of_nat (String.length s).

(** [s.substring(0, k)]: a negative [k] counts as 0, a [k] past the end as
    the length. *)
Definition substring0 (k : Z) (s : string) : string :=
  String.substring 0 (Z.to_nat k) s.

(** One code unit of [String.prototype.toLowerCase]: A-Z, and in the upper
    half U+00C0..U+00DE except the multiplication sign U+00D7.  Below U+0100
    the method maps one code unit to one code unit; above it that fails
    (U+0130 becomes two code units, U+212A becomes [k]), and those strings
    are outside the model. *)
Definition toLowerChar (c : ascii) : ascii :=
  let n := code c in
  if ((65 <=? n) && (n <=? 90))%N then ascii_of_N (n + 32)
  else if ((192 <=? n) && (n <=? 222) && negb (n =? 215))%N
       then ascii_of_N (n + 32)
  else c.

Fixpoint toLowerCase (s : string) : string :=
  match s with
  | EmptyString => EmptyString
  | String c s' => String (toLowerChar c) (toLowerCase s')
  end.

(** The class [\s] (and what [trim] removes): TAB, LF, VT, FF, CR, SPACE and
    NO-BREAK SPACE are the members below 256. *)
Definition is_space (c : ascii) : bool :=
  let n := code c in
  (((9 <=? n) && (n <=? 13)) || (n =? 32) || (n =? 160))%N.

(** The class [\w]: [A-Za-z0-9_]. *)
Definition is_word (c : ascii) : bool :=
  let n := code c in
  (((48 <=? n) && (n <=? 57)) || ((65 <=? n) && (n <=? 90))
   || ((97 <=? n) && (n <=? 122)) || (n =? 95))%N.

Definition is_dash (c : ascii) : bool := (code c =? 45)%N.

Fixpoint trimStart (s : string) : string :=
  match s with
  | EmptyString => EmptyString
  | String c s' => if is_space c then trimStart s' else s
  end.

Fixpoint rev_onto (s acc : string) : string :=
  match s with
  | EmptyString => acc
  | String c s' => rev_onto s' (String c acc)
  end.

Definition rev (s : string) : string := rev_onto s EmptyString.

Definition trimEnd (s : string) : string := rev (trimStart (rev s)).

Definition trim (s : string) : string := trimEnd (trimStart s).

(** [s.replace(/[^C]/g, '')] for a character class [C]: keep the members. *)
Fixpoint keep (p : ascii -> bool) (s : string) : string :=
  match s with
  | EmptyString => EmptyString
  | String c s' => if p c then String c (keep p s') else keep p s'
  end.

(** [s.replace(/[C]+/g, sep)]: every maximal run of members of [C] becomes
    one [sep]; [in_run] tells that the previous code unit was a member. *)
Fixpoint replace_runs (p : ascii -> bool) (sep : string) (in_run : bool)
    (s : string) : string :=
  match s with
  | EmptyString => EmptyString
  | String c s' =>
      if p c then
        if in_run then replace_runs p sep true s'
        else sep +:+ replace_runs p sep true s'
      else String c (replace_runs p sep false s')
  end.

Definition dropFirst (p : ascii -> bool) (s : string) : string :=
  match s with
  | EmptyString => EmptyString
  | String c s' => if p c then s' else s
  end.

(** [s.replace(/^-|-$/g, '')]: one leading dash goes, and one trailing dash
    of what is left. *)
Definition strip_edge_dashes (s : string) : string :=
  rev (dropFirst is_dash (rev (dropFirst is_dash s))).

End JS.

(** ** The path generator (class [PathGenerator]) *)
Module PathGenerator.

(** The fields of an instance; [separator] is the constant ['-'] the
    constructor stores. *)
Record t := mk {
  maxLength : Z;
  existingPaths : gset string;
}.

Definition separator : string := "-".

(** [new PathGenerator(existingPaths, maxLength)] and the default
    [maxLength = 100], which is what both call sites use. *)
Definition new (paths : list string) (maxLen : Z) : t :=
  {| maxLength := maxLen; existingPaths := list_to_set paths |}.

Definition new_default (paths : list string) : t := new paths 100.

Definition slugify (text : string) : string :=
  let s1 := JS.toLowerCase text in
  let s2 := JS.trim s1 in
  let s3 := JS.keep (fun c => JS.is_word c || JS.is_space c || JS.is_dash c) s2 in
  let s4 := JS.replace_runs (fun c => JS.is_space c || (JS.code c =? 95)%N)
              separator false s3 in
  let s5 := JS.replace_runs JS.is_dash separator false s4 in
  JS.strip_edge_dashes s5.

(** [counter] is a JavaScript number holding an integer: [counter++] is exact
    below 2^53 and leaves 2^53 where it is (2^53 + 1 rounds back to 2^53). *)
Definition counter_succ (counter : N) : N :=
  if (counter <? 2 ^ 53)%N then (counter + 1)%N else counter.

(** The [while] loop of [makeUnique].  One unit of [fuel] is one evaluation
    of the loop condition. *)
Fixpoint makeUnique_loop (fuel : nat) (g : t) (path : string) (counter : N)
    (finalPath : string) : option string :=
  match fuel with
  | O => None
  | S fuel' =>
      if decide (finalPath ∈ existingPaths g) then
        let finalPath1 := path +:+ separator +:+ pretty counter in
        let counter1 := counter_succ counter in
        if (maxLength g <? JS.len finalPath1)%Z then
          let suffix := separator +:+ pretty counter1 in
          let path1 := JS.substring0 (maxLength g - JS.len suffix) path in
          makeUnique_loop fuel' g path1 counter1 (path1 +:+ suffix)
        else makeUnique_loop fuel' g path counter1 finalPath1
      else Some finalPath
  end.

(** The base path as it enters the loop. *)
Definition initialPath (g : t) (basePath : string) : string :=
  if (maxLength g <? JS.len basePath)%Z
  then JS.substring0 (maxLength g - 3) basePath
  else basePath.

Definition makeUnique (fuel : nat) (g : t) (basePath : string) : option string :=
  let path := initialPath g basePath in
  makeUnique_loop fuel g path 1%N path.

(** [generatePath] returns the path and the instance with the path added to
    its set. *)
Definition generatePath (fuel : nat) (g : t) (title : string)
    : option (string * t) :=
  match makeUnique fuel g (slugify title) with
  | Some uniquePath =>
      Some (uniquePath,
            {| maxLength := maxLength g;
               existingPaths := {[uniquePath]} ∪ existingPaths g |})
  | None => None
  end.

(** A batch: successive [generatePath] calls on one instance. *)
Fixpoint generatePaths (fuel : nat) (g : t) (titles : list string)
    : option (list string * t) :=
  match titles with
  | [] => Some ([], g)
  | title :: rest =>
      match generatePath fuel g title with
      | Some (p, g1) =>
          match generatePaths fuel g1 rest with
          | Some (ps, g2) => Some (p :: ps, g2)
          | None => None
          end
      | None => None
      end
  end.

End PathGenerator.


(** ** The path of a created or updated news item *)
Module NewsActions.
Import PathGenerator.

(** What [updateNews] selects of the stored item. *)
Record CurrentNews := mkCurrent { path : string; title : string }.

(** [createNews]: the path is generated against every stored path. *)
Definition createNews_path (fuel : nat) (existing : list string)
    (newTitle : string) : option string :=
  fst <$> generatePath fuel (new_default existing) newTitle.

(** [existingPaths.filter((p) => p !== currentNews?.path)]: with no current
    item the comparison is against [undefined] and keeps every path. *)
Definition filteredPaths (existing : list string)
    (currentNews : option CurrentNews) : list string :=
  filter (λ p, Some p ≠ path <$> currentNews) existing.

Definition updateNews_path (fuel : nat) (existing : list string)
    (currentNews : option CurrentNews) (newTitle : string) : option string :=
  fst <$> generatePath fuel (new_default (filteredPaths existing currentNews))
            newTitle.

End NewsActions.

(** ** Outcomes of server actions *)
Inductive result (A : Type) : Type :=
| Ok (value : A)
| Throw (message : string).
Arguments Ok {A} value.
Arguments Throw {A} message.

(** Sequencing: a [Throw] skips what follows. *)
Global Instance result_bind : MBind result := λ A B k r,
  match r with
  | Ok a => k a
  | Throw m => Throw m
  end.

(** ** The comment actions over an explicit store *)
Module Store.

Record NewsInteraction := mkNewsInteraction {
  newsId : string;
  popularityScore : Z;
}.

Record UserInteraction := mkUserInteraction {
  userId : string;
  contributionScore : Z;
}.

Record Comment := mkComment {
  text : string;
  newsInteractionId : string;
  userInteractionId : string;
}.

(** The three tables the comment actions touch, keyed by primary key [id].
    A user row is represented by its id in [userId] (the foreign key), a news
    row by its id in [newsId]. *)
Record t := mk {
  newsInteractions : gmap string NewsInteraction;
  userInteractions : gmap string UserInteraction;
  comments : gmap string Comment;
}.

(** [findFirst({ where })]: the first row, in the order the table lists its
    rows, that satisfies the condition. *)
Definition findFirst {A : Type} (cond : A → bool) (table : gmap string A)
    : option (string * A) :=
  List.find (λ row, cond row.2) (map_to_list table).

(** [$transaction]: commit the writes of a body that returns, keep the old
    store when it throws. *)
Definition transaction (body : t → result t) (s : t) : t * result () :=
  match body s with
  | Ok s' => (s', Ok ())
  | Throw m => (s, Throw m)
  end.

End Store.

Module CommentActions.
Import Store.

(** What [getCurrentUserData] resolves to. *)
Record User := mkUser { id : string }.

Record CommentInput := mkInput {
  input_text : string;
  input_newsId : string;
}.

(** [CommentSchema.safeParse] and the message of its first issue. *)
Definition validate (data : CommentInput) : result () :=
  if (JS.len (input_text data) <? 1)%Z then Throw "Comment cannot be empty"
  else if (500 <? JS.len (input_text data))%Z then Throw "Comment is too long"
  else if (JS.len (input_newsId data) <? 1)%Z
       then Throw "String must contain at least 1 character(s)"
  else Ok ().

Section WithColumns.
(** The range of the two integer score columns: an update that would leave
    it is refused by the storage engine. *)
Variable score_ok : Z → bool.

(** [update({ where: { id }, data: { popularityScore: { increment } } })] *)
Definition update_popularity (key : string) (delta : Z) (s : t) : result t :=
  match newsInteractions s !! key with
  | None => Throw "Record to update not found"
  | Some row =>
      let score := (popularityScore row + delta)%Z in
      if score_ok score then
        Ok {| newsInteractions :=
                <[key := {| newsId := newsId row; popularityScore := score |}]>
                  (newsInteractions s);
              userInteractions := userInteractions s;
              comments := comments s |}
      else Throw "Value out of range"
  end.

Definition update_contribution (key : string) (delta : Z) (s : t) : result t :=
  match userInteractions s !! key with
  | None => Throw "Record to update not found"
  | Some row =>
      let score := (contributionScore row + delta)%Z in
      if score_ok score then
        Ok {| newsInteractions := newsInteractions s;
              userInteractions :=
                <[key := {| userId := userId row; contributionScore := score |}]>
                  (userInteractions s);
              comments := comments s |}
      else Throw "Value out of range"
  end.

(** [comment.create]: [newId] is the primary key the storage layer draws
    for the new row. *)
Definition create_comment (newId : string) (row : Comment) (s : t) : result t :=
  match comments s !! newId with
  | Some _ => Throw "Unique constraint failed"
  | None =>
      Ok {| newsInteractions := newsInteractions s;
            userInteractions := userInteractions s;
            comments := <[newId := row]> (comments s) |}
  end.

Definition delete_comment (commentId : string) (s : t) : result t :=
  match comments s !! commentId with
  | None => Throw "Record to delete does not exist"
  | Some _ =>
      Ok {| newsInteractions := newsInteractions s;
            userInteractions := userInteractions s;
            comments := delete commentId (comments s) |}
  end.

Definition addComment (session : option User) (data : CommentInput)
    (newId : string) (s : t) : t * result () :=
  match validate data with
  | Throw m => (s, Throw m)
  | Ok _ =>
      match session with
      | None => (s, Throw "Unauthorized")
      | Some user =>
          transaction (λ tx,
            match findFirst (λ r, bool_decide (newsId r = input_newsId data))
                    (newsInteractions tx) with
            | None => Throw "News interaction not found"
            | Some (niId, _) =>
                match findFirst (λ r, bool_decide (userId r = id user))
                        (userInteractions tx) with
                | None => Throw "User interaction not found"
                | Some (uiId, _) =>
                    tx1 ← create_comment newId
                            {| text := input_text data;
                               newsInteractionId := niId;
                               userInteractionId := uiId |} tx;
                    tx2 ← update_popularity niId 2 tx1;
                    update_contribution uiId 2 tx2
                end
            end) s
      end
  end.

(** [comment.findUnique] with both interactions included; the included
    rows are required relations. *)
Definition findComment (commentId : string) (s : t)
    : result (option (Comment * NewsInteraction * UserInteraction)) :=
  match comments s !! commentId with
  | None => Ok None
  | Some c =>
      match newsInteractions s !! newsInteractionId c,
            userInteractions s !! userInteractionId c with
      | Some ni, Some ui => Ok (Some (c, ni, ui))
      | _, _ => Throw "Inconsistent query result"
      end
  end.

Definition deleteComment (session : option User) (commentId : string)
    (s : t) : t * result () :=
  match session with
  | None => (s, Throw "Unauthorized")
  | Some user =>
      match findComment commentId s with
      | Throw m => (s, Throw m)
      | Ok None => (s, Throw "Comment not found")
      | Ok (Some (comment, _, ui)) =>
          if bool_decide (userId ui = id user) then
            transaction (λ tx,
              tx1 ← delete_comment commentId tx;
              tx2 ← update_popularity (newsInteractionId comment) (-2) tx1;
              update_contribution (userInteractionId comment) (-2) tx2) s
          else (s, Throw "Unauthorized")
      end
  end.

(** The score [addComment] would bump for a news item, and for a user. *)
Definition popularity_of (news : string) (s : t) : option Z :=
  (λ row, popularityScore row.2) <$>
    findFirst (λ r, bool_decide (newsId r = news)) (newsInteractions s).

Definition contribution_of (user : User) (s : t) : option Z :=
  (λ row, contributionScore row.2) <$>
    findFirst (λ r, bool_decide (userId r = id user)) (userInteractions s).

(** The news item a comment hangs on ([comment.newsInteraction.news.id]). *)
Definition comment_news (commentId : string) (s : t) : option string :=
  c ← comments s !! commentId;
  ni ← newsInteractions s !! newsInteractionId c;
  Some (newsId ni).

(** Calls of one user about one news item. *)
Inductive request :=
| Add (text : string) (newId : string)
| Delete (commentId : string).

(** [None] when a [Delete] aims at a comment of another news item. *)
Definition serve (user : User) (news : string) (r : request) (s : t)
    : option (t * result ()) :=
  match r with
  | Add text newId =>
      Some (addComment (Some user)
              {| input_text := text; input_newsId := news |} newId s)
  | Delete commentId =>
      match comment_news commentId s with
      | Some n =>
          if bool_decide (n = news)
          then Some (deleteComment (Some user) commentId s) else None
      | None => Some (deleteComment (Some user) commentId s)
      end
  end.

(** Runs the calls in order; counts the [addComment] calls and the
    [deleteComment] calls that returned. *)
Fixpoint session_run (user : User) (news : string) (rs : list request)
    (s : t) : option (t * nat * nat) :=
  match rs with
  | [] => Some (s, 0, 0)
  | r :: rest =>
      match serve user news r s with
      | None => None
      | Some (s1, outcome) =>
          match session_run user news rest s1 with
          | None => None
          | Some (s2, adds, deletes) =>
              match outcome, r with
              | Ok _, Add _ _ => Some (s2, S adds, deletes)
              | Ok _, Delete _ => Some (s2, adds, S deletes)
              | Throw _, _ => Some (s2, adds, deletes)
              end
          end
      end
  end.

(** At most one row of the table satisfies the condition. *)
Definition at_most_one {A : Type} (cond : A → bool) (table : gmap string A)
    : bool :=
  bool_decide (length (filter (λ row, cond row.2) (map_to_list table)) ≤ 1).

End WithColumns.
End CommentActions.

(** ** The dashboard aggregator *)
Module Dashboard.

(** A JavaScript number that holds a row count (exact below 2^53). *)
Definition number_of_count (n : N) : float :=
  PrimFloat.of_uint63 (Uint63.of_Z (Z.of_N n)).

Definition calculateTrend (current previous : float) : float :=
  if (previous =? 0)%float then 0%float
  else ((current - previous) / previous * 100)%float.

(** The keys of [LOG_ACTIONS] that [formatLogAction] switches on, in the
    order of its cases. *)
Inductive LogKey :=
| NEWS_CREATED | NEWS_UPDATED | NEWS_DELETED | COMMENT_ADDED | NEWS_LIKED
| NEWS_UNLIKED | NEWS_BOOKMARKED | SECTION_ADDED | SECTION_UPDATED
| SECTION_DELETED | SECTION_REORDERED | NEWS_UNBOOKMARKED | COMMENT_UPDATED
| COMMENT_DELETED | COLLECTION_CREATED | COLLECTION_UPDATED
| COLLECTION_DELETED | NEWS_ADDED_TO_COLLECTION | NEWS_REMOVED_FROM_COLLECTION
| CATEGORY_CREATED | CATEGORY_UPDATED | CATEGORY_DELETED | SUBCATEGORY_CREATED
| SUBCATEGORY_UPDATED | SUBCATEGORY_DELETED | USER_CREATED | USER_UPDATED
| USER_ROLE_CHANGED | USER_DELETED.

Definition cases : list (LogKey * string) :=
  [ (NEWS_CREATED, "Created a new article");
    (NEWS_UPDATED, "Updated an article");
    (NEWS_DELETED, "Deleted an article");
    (COMMENT_ADDED, "Added a comment");
    (NEWS_LIKED, "Liked an article");
    (NEWS_UNLIKED, "Unliked an article");
    (NEWS_BOOKMARKED, "Bookmarked an article");
    (SECTION_ADDED, "Added a new section");
    (SECTION_UPDATED, "Updated a section");
    (SECTION_DELETED, "Deleted a section");
    (SECTION_REORDERED, "Reordered sections");
    (NEWS_UNBOOKMARKED, "Removed bookmark");
    (COMMENT_UPDATED, "Updated a comment");
    (COMMENT_DELETED, "Deleted a comment");
    (COLLECTION_CREATED, "Created a collection");
    (COLLECTION_UPDATED, "Updated collection");
    (COLLECTION_DELETED, "Deleted collection");
    (NEWS_ADDED_TO_COLLECTION, "Added article to collection");
    (NEWS_REMOVED_FROM_COLLECTION, "Removed article from collection");
    (CATEGORY_CREATED, "Created a category");
    (CATEGORY_UPDATED, "Updated category");
    (CATEGORY_DELETED, "Deleted category");
    (SUBCATEGORY_CREATED, "Created a subcategory");
    (SUBCATEGORY_UPDATED, "Updated subcategory");
    (SUBCATEGORY_DELETED, "Deleted subcategory");
    (USER_CREATED, "Created a new user");
    (USER_UPDATED, "Updated user details");
    (USER_ROLE_CHANGED, "Changed user role");
    (USER_DELETED, "Deleted user") ].

(** A row of the audit log with its user included; [createdAt] is a
    timestamp, [metadata] the stored JSON value as text. *)
Record LogUser := mkLogUser { clerkId : option string }.

Record Log := mkLog {
  log_id : string;
  log_user : LogUser;
  log_action : string;
  log_createdAt : Z;
  log_description : string;
  log_metadata : string;
}.

(** The profile the identity provider returns. *)
Record ClerkUser := mkClerkUser {
  firstName : option string;
  lastName : option string;
  imageUrl : option string;
}.

Record ActivityUser := mkActivityUser {
  act_clerkId : option string;
  act_firstName : option string;
  act_lastName : option string;
  act_imageUrl : option string;
}.

Record Activity := mkActivity {
  act_id : string;
  act_user : ActivityUser;
  activity : string;
  date : Z;
  description : string;
  metadata : string;
}.

Record Metric := mkMetric { value : string; trend : float }.

Record DashboardMetrics := mkMetrics {
  totalNews : Metric;
  totalLikes : Metric;
  totalReaders : Metric;
  newComments : Metric;
}.

Record DashboardData := mkData {
  metrics : DashboardMetrics;
  activities : list Activity;
}.

(** What the storage queries of one [getDashboardData] call returned. *)
Record Queries := mkQueries {
  todayArticles : N;
  yesterdayArticles : N;
  recentActivities : list Log;
  todayNewComments : N;
  yesterdayNewComments : N;
  todayLikes : N;
  yesterdayLikes : N;
  totalArticles : N;
  totalLikesCount : N;
  totalReadersCount : N;
}.

(** [field || null] on an optional string: the empty string is falsy. *)
Definition or_null (field : option string) : option string :=
  match field with
  | Some s => if bool_decide (s = "") then None else Some s
  | None => None
  end.

(** [try { body } catch (error) { handler }] *)
Definition try_catch {A : Type} (body : result A) (handler : string → result A)
    : result A :=
  match body with
  | Ok a => Ok a
  | Throw m => handler m
  end.

(** [Promise.all]: the results in order, or the first rejection. *)
Fixpoint promise_all {A : Type} (ps : list (result A)) : result (list A) :=
  match ps with
  | [] => Ok []
  | p :: rest =>
      match p, promise_all rest with
      | Ok a, Ok l => Ok (a :: l)
      | Throw m, _ => Throw m
      | Ok _, Throw m => Throw m
      end
  end.

Fixpoint replace_dots (s : string) : string :=
  match s with
  | EmptyString => EmptyString
  | String c s' =>
      String (if (JS.code c =? 46)%N then " "%char else c) (replace_dots s')
  end.

Section WithCollaborators.
(** The action names of [LOG_ACTIONS] (module [lib/log]). *)
Variable LOG_ACTIONS : LogKey → string.

(** The identity provider: the outcome of the lookup made for the entry at
    position [call] of the batch. *)
Variable getClerkUser : nat → option string → result (option ClerkUser).

Definition formatLogAction (action : string) : string :=
  match List.find (λ c, bool_decide (action = LOG_ACTIONS c.1)) cases with
  | Some (_, phrase) => phrase
  | None => JS.toLowerCase (replace_dots action)
  end.

Definition formatActivity (call : nat) (log : Log) : result Activity :=
  try_catch
    (clerkUser ← getClerkUser call (clerkId (log_user log));
     Ok {| act_id := log_id log;
           act_user :=
             {| act_clerkId := clerkId (log_user log);
                act_firstName := or_null (clerkUser ≫= firstName);
                act_lastName := or_null (clerkUser ≫= lastName);
                act_imageUrl := or_null (clerkUser ≫= imageUrl) |};
           activity := formatLogAction (log_action log);
           date := log_createdAt log;
           description := log_description log;
           metadata := log_metadata log |})
    (λ _, Ok {| act_id := log_id log;
                act_user :=
                  {| act_clerkId := clerkId (log_user log);
                     act_firstName := None;
                     act_lastName := None;
                     act_imageUrl := None |};
                activity := formatLogAction (log_action log);
                date := log_createdAt log;
                description := log_description log;
                metadata := log_metadata log |}).

Definition formatActivities (logs : list Log) : result (list Activity) :=
  promise_all (imap formatActivity logs).

Definition getDashboardData (q : Queries) : result DashboardData :=
  let articlesTrend :=
    calculateTrend (number_of_count (todayArticles q))
      (number_of_count (yesterdayArticles q)) in
  let commentsTrend :=
    calculateTrend (number_of_count (todayNewComments q))
      (number_of_count (yesterdayNewComments q)) in
  let likesTrend :=
    calculateTrend (number_of_count (todayLikes q))
      (number_of_count (yesterdayLikes q)) in
  acts ← formatActivities (recentActivities q);
  Ok {| metrics :=
          {| totalNews :=
               {| value := pretty (totalArticles q); trend := articlesTrend |};
             totalLikes :=
               {| value := pretty (totalLikesCount q); trend := likesTrend |};
             totalReaders :=
               {| value := pretty (totalReadersCount q);
                  trend :=
                    calculateTrend (number_of_count (todayArticles q))
                      (number_of_count (yesterdayArticles q)) |};
             newComments :=
               {| value := pretty (todayNewComments q);
                  trend := commentsTrend |} |};
        activities := acts |}.

End WithCollaborators.
End Dashboard.

(** ** Notions used in the statements and proofs *)
Section Notions.
Import Store CommentActions Dashboard.

(** A title of [n] letters, for the examples. *)
Fixpoint letters (n : nat) : string :=
  match n with
  | O => EmptyString
  | S n' => String "a"%char (letters n')
  end.

Fixpoint no_dash (s : string) : Prop :=
  match s with
  | EmptyString => True
  | String c s' => c ≠ "-"%char ∧ no_dash s'
  end.

(** The candidate built from [path] and the counter value [n]. *)
Definition numbered (path : string) (n : N) : string :=
  path +:+ PathGenerator.separator +:+ pretty n.

(** [v] is a candidate numbered below [k]. *)
Definition numbered_below (k : N) (v : string) : Prop :=
  ∃ p m, v = p +:+ PathGenerator.separator +:+ pretty m ∧ (m < k)%N.

(** [key] holds the only interaction row of [news], with score [p]. *)
Definition sole_news (news key : string) (p : Z) (s : Store.t) : Prop :=
  newsInteractions s !! key = Some {| newsId := news; popularityScore := p |} ∧
  ∀ k r, newsInteractions s !! k = Some r → newsId r = news → k = key.

Definition sole_user (user : User) (key : string) (c : Z) (s : Store.t) : Prop :=
  userInteractions s !! key = Some {| userId := id user; contributionScore := c |} ∧
  ∀ k r, userInteractions s !! k = Some r → userId r = id user → k = key.

(** A 32-bit integer column. *)
Definition int4 (z : Z) : bool := ((-2147483648 <=? z) && (z <=? 2147483647))%Z.

(** A store with two news items, two users and one comment of the second
    user on the first item. *)
Definition sample_store : Store.t :=
  {| newsInteractions :=
       {[ "ni1" := {| newsId := "n1"; popularityScore := 10 |};
          "ni2" := {| newsId := "n2"; popularityScore := 4 |} ]};
     userInteractions :=
       {[ "ui1" := {| userId := "u1"; contributionScore := 6 |};
          "ui2" := {| userId := "u2"; contributionScore := 2 |} ]};
     comments :=
       {[ "c0" := {| text := "first"; newsInteractionId := "ni1";
                     userInteractionId := "ui2" |} ]} |}.

(** Two comments added, one of them deleted again; a delete of another
    user's comment, an empty comment and a delete of a missing comment are
    refused. *)
Definition sample_calls : list request :=
  [Add "a" "c1"; Add "b" "c2"; Delete "c1"; Delete "c0"; Add "" "c3"; Delete "zz"].

(** The profile fields of the entry at position [call]. *)
Definition resolved_user
    (getClerkUser : nat → option string → result (option ClerkUser))
    (call : nat) (log : Log) : ActivityUser :=
  match getClerkUser call (clerkId (log_user log)) with
  | Ok (Some profile) =>
      {| act_clerkId := clerkId (log_user log);
         act_firstName := or_null (firstName profile);
         act_lastName := or_null (lastName profile);
         act_imageUrl := or_null (imageUrl profile) |}
  | Ok None | Throw _ =>
      {| act_clerkId := clerkId (log_user log);
         act_firstName := None;
         act_lastName := None;
         act_imageUrl := None |}
  end.

Definition resolved_activity (LOG_ACTIONS : LogKey → string)
    (getClerkUser : nat → option string → result (option ClerkUser))
    (call : nat) (log : Log) : Activity :=
  {| act_id := log_id log;
     act_user := resolved_user getClerkUser call log;
     activity := formatLogAction LOG_ACTIONS (log_action log);
     date := log_createdAt log;
     description := log_description log;
     metadata := log_metadata log |}.

End Notions.

(** ** Shapes of strings, for the statements about slugs *)
Module Shape.

(** Every code unit of [s] satisfies [p]. *)
Fixpoint every (p : ascii → bool) (s : string) : bool :=
  match s with
  | EmptyString => true
  | String c s' => p c && every p s'
  end.

(** [0-9], [a-z] or the dash. *)
Definition is_slug_char (c : ascii) : bool :=
  let n := JS.code c in
  (((48 <=? n) && (n <=? 57)) || ((97 <=? n) && (n <=? 122)) || (n =? 45))%N.

(** [0-9], [A-Z] or [a-z]. *)
Definition is_alnum (c : ascii) : bool :=
  let n := JS.code c in
  (((48 <=? n) && (n <=? 57)) || ((65 <=? n) && (n <=? 90))
   || ((97 <=? n) && (n <=? 122)))%N.

Definition is_upper (c : ascii) : bool :=
  let n := JS.code c in ((65 <=? n) && (n <=? 90))%N.

Definition is_dot (c : ascii) : bool := (JS.code c =? 46)%N.

Definition starts_with_dash (s : string) : bool :=
  match s with
  | EmptyString => false
  | String c _ => JS.is_dash c
  end.

Fixpoint ends_with_dash (s : string) : bool :=
  match s with
  | EmptyString => false
  | String c s' =>
      match s' with
      | EmptyString => JS.is_dash c
      | String _ _ => ends_with_dash s'
      end
  end.

(** Two dashes next to each other somewhere in [s]. *)
Fixpoint has_double_dash (s : string) : bool :=
  match s with
  | EmptyString => false
  | String c s' => (JS.is_dash c && starts_with_dash s') || has_double_dash s'
  end.

End Shape.

(** ** Comments counted per interaction row *)
Module CommentCounts.
Import Store.

(** The number of comments that hang on the news-interaction row [key], and
    on the user-interaction row [key]. *)
Definition comments_on (key : string) (s : Store.t) : nat :=
  size (filter (λ kc : string * Comment, newsInteractionId kc.2 = key) (comments s)).

Definition comments_by (key : string) (s : Store.t) : nat :=
  size (filter (λ kc : string * Comment, userInteractionId kc.2 = key) (comments s)).

(** The score of a row less 2 for each of its comments. *)
Definition popularity_base (key : string) (s : Store.t) : option Z :=
  (λ row, popularityScore row - 2 * Z.of_nat (comments_on key s))%Z
    <$> newsInteractions s !! key.

Definition contribution_base (key : string) (s : Store.t) : option Z :=
  (λ row, contributionScore row - 2 * Z.of_nat (comments_by key s))%Z
    <$> userInteractions s !! key.

(** The number of comments on the interaction row [addComment] resolves for a
    news item, and on the row it resolves for a user (0 without such a row). *)
Definition comments_of_news (news : string) (s : Store.t) : nat :=
  match findFirst (λ r, bool_decide (newsId r = news)) (newsInteractions s) with
  | Some (key, _) => comments_on key s
  | None => 0
  end.

Definition comments_of_user (user : CommentActions.User) (s : Store.t) : nat :=
  match findFirst (λ r, bool_decide (userId r = CommentActions.id user))
          (userInteractions s) with
  | Some (key, _) => comments_by key s
  | None => 0
  end.

(** The store [addComment] leaves when it returns. *)
Definition store_after_add (s : Store.t) (kn : string) (rn : NewsInteraction)
    (ku : string) (ru : UserInteraction) (newId txt : string) : Store.t :=
  {| newsInteractions :=
       <[kn := {| newsId := newsId rn;
                  popularityScore := popularityScore rn + 2 |}]>
         (newsInteractions s);
     userInteractions :=
       <[ku := {| userId := userId ru;
                  contributionScore := contributionScore ru + 2 |}]>
         (userInteractions s);
     comments :=
       <[newId := {| text := txt; newsInteractionId := kn;
                     userInteractionId := ku |}]> (comments s) |}.

(** The store [deleteComment] leaves when it returns. *)
Definition store_after_delete (s : Store.t) (commentId : string) (c : Comment)
    (ni : NewsInteraction) (ui : UserInteraction) : Store.t :=
  {| newsInteractions :=
       <[newsInteractionId c :=
           {| newsId := newsId ni;
              popularityScore := popularityScore ni + -2 |}]>
         (newsInteractions s);
     userInteractions :=
       <[userInteractionId c :=
           {| userId := userId ui;
              contributionScore := contributionScore ui + -2 |}]>
         (userInteractions s);
     comments := delete commentId (comments s) |}.

End CommentCounts.

(** ** Log action names, for the statements about [formatLogAction] *)
Global Instance LogKey_eq_dec : EqDecision Dashboard.LogKey.
Proof. solve_decision. Defined.

(** One possible table of action names: each key under its own name. *)
Definition sample_LOG_ACTIONS (k : Dashboard.LogKey) : string :=
  match k with
  | Dashboard.NEWS_CREATED => "NEWS_CREATED"
  | Dashboard.NEWS_UPDATED => "NEWS_UPDATED"
  | Dashboard.NEWS_DELETED => "NEWS_DELETED"
  | Dashboard.COMMENT_ADDED => "COMMENT_ADDED"
  | Dashboard.NEWS_LIKED => "NEWS_LIKED"
  | Dashboard.NEWS_UNLIKED => "NEWS_UNLIKED"
  | Dashboard.NEWS_BOOKMARKED => "NEWS_BOOKMARKED"
  | Dashboard.SECTION_ADDED => "SECTION_ADDED"
  | Dashboard.SECTION_UPDATED => "SECTION_UPDATED"
  | Dashboard.SECTION_DELETED => "SECTION_DELETED"
  | Dashboard.SECTION_REORDERED => "SECTION_REORDERED"
  | Dashboard.NEWS_UNBOOKMARKED => "NEWS_UNBOOKMARKED"
  | Dashboard.COMMENT_UPDATED => "COMMENT_UPDATED"
  | Dashboard.COMMENT_DELETED => "COMMENT_DELETED"
  | Dashboard.COLLECTION_CREATED => "COLLECTION_CREATED"
  | Dashboard.COLLECTION_UPDATED => "COLLECTION_UPDATED"
  | Dashboard.COLLECTION_DELETED => "COLLECTION_DELETED"
  | Dashboard.NEWS_ADDED_TO_COLLECTION => "NEWS_ADDED_TO_COLLECTION"
  | Dashboard.NEWS_REMOVED_FROM_COLLECTION => "NEWS_REMOVED_FROM_COLLECTION"
  | Dashboard.CATEGORY_CREATED => "CATEGORY_CREATED"
  | Dashboard.CATEGORY_UPDATED => "CATEGORY_UPDATED"
  | Dashboard.CATEGORY_DELETED => "CATEGORY_DELETED"
  | Dashboard.SUBCATEGORY_CREATED => "SUBCATEGORY_CREATED"
  | Dashboard.SUBCATEGORY_UPDATED => "SUBCATEGORY_UPDATED"
  | Dashboard.SUBCATEGORY_DELETED => "SUBCATEGORY_DELETED"
  | Dashboard.USER_CREATED => "USER_CREATED"
  | Dashboard.USER_UPDATED => "USER_UPDATED"
  | Dashboard.USER_ROLE_CHANGED => "USER_ROLE_CHANGED"
  | Dashboard.USER_DELETED => "USER_DELETED"
  end.

(** ** Listing comments *)
Module CommentReads.
Import Store CommentActions.

(** Every comment has its two interaction rows (the foreign keys hold). *)
Definition references_ok (s : Store.t) : Prop :=
  ∀ k c, comments s !! k = Some c →
    is_Some (newsInteractions s !! newsInteractionId c) ∧
    is_Some (userInteractions s !! userInteractionId c).

Section WithClock.
(** The [createdAt] column of the comment stored under a key. *)
Variable createdAt : string → Z.

Definition newer_or_equal (a b : string * Comment) : Prop :=
  (createdAt b.1 ≤ createdAt a.1)%Z.

#[global] Instance newer_or_equal_dec (a b : string * Comment) :
  Decision (newer_or_equal a b).
Proof. unfold newer_or_equal. apply _. Defined.

(** [orderBy: { createdAt: 'desc' }] *)
Definition newest_first (rows : list (string * Comment))
    : list (string * Comment) :=
  merge_sort newer_or_equal rows.

(** [getNewsComments]: the comments of the first interaction row of the news
    item, newest first.  The author of each comment is included with it, so
    the query throws when an author row is missing; whatever is thrown is
    caught and the result is the empty list. *)
Definition getNewsComments (news : string) (s : Store.t)
    : list (string * Comment) :=
  match findFirst (λ r, bool_decide (newsId r = news)) (newsInteractions s) with
  | None => []
  | Some (key, _) =>
      let rows := filter (λ kc : string * Comment, newsInteractionId kc.2 = key)
                    (map_to_list (comments s)) in
      if forallb (λ kc : string * Comment,
            bool_decide (is_Some (userInteractions s !! userInteractionId kc.2)))
           rows
      then newest_first rows
      else []
  end.

(** [getUserComments]: the comments of the first user-interaction row of the
    signed-in user, newest first; the news interaction of each comment is
    included with it.  Whatever is thrown, a missing session too, is rethrown
    as 'Failed to fetch comments'. *)
Definition getUserComments (session : option User) (s : Store.t)
    : result (list (string * Comment)) :=
  match session with
  | None => Throw "Failed to fetch comments"
  | Some user =>
      match findFirst (λ r, bool_decide (userId r = id user))
              (userInteractions s) with
      | None => Ok []
      | Some (key, _) =>
          let rows := filter (λ kc : string * Comment, userInteractionId kc.2 = key)
                        (map_to_list (comments s)) in
          if forallb (λ kc : string * Comment,
                bool_decide (is_Some (newsInteractions s !! newsInteractionId kc.2)))
               rows
          then Ok (newest_first rows)
          else Throw "Failed to fetch comments"
      end
  end.

End WithClock.
End CommentReads.



(** Creation times for the examples. *)
Definition sample_createdAt (key : string) : Z :=
  if String.eqb key "c0" then 10 else if String.eqb key "c1" then 20 else 0.

(** ** The section list of the news editor *)
Module Editor.

Inductive SectionContent :=
| TextContent (text : string)
| ImageContent (imageUrl alt description : string).

Inductive ContentType := text_type | image_type.

Record Section := mkSection {
  id : string;
  order : nat;
  title : option string;
  isSeparator : bool;
  content : SectionContent;
}.

(** The part of the page state the handlers below read and set. *)
Record State := mkState {
  sections : list Section;
  isDragging : bool;
  draggedIndex : option nat;
}.

(** [addSection]; [newId] is the id drawn with [Math.random]. *)
Definition addSection (newId : string) (type : ContentType)
    (secs : list Section) : list Section :=
  secs ++ [ {| id := newId;
               order := length secs;
               title := None;
               isSeparator := false;
               content := match type with
                          | text_type => TextContent ""
                          | image_type => ImageContent "" "" ""
                          end |} ].

(** [array.filter((_, i) => keep(i))], with [i] the position of the first
    element of [l]. *)
Fixpoint filter_index {A : Type} (keep : nat → bool) (i : nat) (l : list A)
    : list A :=
  match l with
  | [] => []
  | x :: l' =>
      if keep i then x :: filter_index keep (S i) l'
      else filter_index keep (S i) l'
  end.

Definition removeSection (index : nat) (secs : list Section) : list Section :=
  filter_index (λ i, negb (i =? index)) 0 secs.

(** [array.splice(index, 0, x)]: an index past the end inserts at the end. *)
Definition splice_in {A : Type} (index : nat) (x : A) (l : list A) : list A :=
  take index l ++ x :: drop index l.

(** [array.splice(index, 1)]: an index past the end removes nothing. *)
Definition splice_out {A : Type} (index : nat) (l : list A) : list A :=
  take index l ++ drop (S index) l.

Definition handleDragStart (index : nat) (st : State) : State :=
  {| sections := sections st; isDragging := true; draggedIndex := Some index |}.

(** [handleDragOver]: without a dragged index nothing changes.  A dragged
    index past the end would read [undefined] and splice it into the array;
    the model has no such arrays and gives [None] there. *)
Definition handleDragOver (index : nat) (st : State) : option State :=
  match draggedIndex st with
  | None => Some st
  | Some dragged =>
      match sections st !! dragged with
      | None => None
      | Some draggedSection =>
          Some {| sections :=
                    splice_in index draggedSection
                      (splice_out dragged (sections st));
                  isDragging := isDragging st;
                  draggedIndex := Some index |}
      end
  end.

Definition handleDragEnd (st : State) : State :=
  {| sections := sections st; isDragging := false; draggedIndex := None |}.

End Editor.

(** ** Facts about strings and decimal numerals *)
Section StringFacts.

Lemma string_app_nil_l (s : string) : "" +:+ s = s.
Proof. reflexivity. Qed.

Lemma string_app_cons (c : ascii) (s t : string) : String c s +:+ t = String c (s +:+ t).
Proof. reflexivity. Qed.

Lemma string_length_app (s1 s2 : string) :
  String.length (s1 +:+ s2) = String.length s1 + String.length s2.
Proof. induction s1 as [|c s1 IH]; simpl; [done | by rewrite IH]. Qed.

Lemma len_app (s1 s2 : string) : JS.len (s1 +:+ s2) = (JS.len s1 + JS.len s2)%Z.
Proof. unfold JS.len. rewrite string_length_app. lia. Qed.

Lemma len_nonneg (s : string) : (0 ≤ JS.len s)%Z.
Proof. unfold JS.len. lia. Qed.

Lemma length_substring0 (n : nat) (s : string) :
  String.length (String.substring 0 n s) = n `min` String.length s.
Proof.
  revert s. induction n as [|n IH]; intros [|c s]; simpl; try done.
  by rewrite IH.
Qed.

Lemma len_substring0 (k : Z) (s : string) :
  JS.len (JS.substring0 k s) = (Z.max 0 k `min` JS.len s)%Z.
Proof. unfold JS.len, JS.substring0. rewrite length_substring0. lia. Qed.

(** The numeral of [x] written in front of [s] adds at most [k] digits when
    [x < 10 ^ k]. *)
Lemma pretty_N_go_length (k : nat) (x : N) (s : string) :
  (x < 10 ^ N.of_nat k)%N →
  String.length (pretty_N_go x s) ≤ String.length s + k.
Proof.
  revert x s. induction k as [|k IH]; intros x s Hx.
  - assert (x = 0%N) as -> by (simpl in Hx; lia).
    rewrite pretty_N_go_0. lia.
  - destruct (decide (x = 0%N)) as [->|Hne].
    { rewrite pretty_N_go_0. lia. }
    rewrite pretty_N_go_step by lia.
    etrans; [apply IH|simpl; lia].
    apply N.Div0.div_lt_upper_bound.
    replace (N.of_nat (S k)) with (N.succ (N.of_nat k)) in Hx by lia.
    by rewrite N.pow_succ_r' in Hx.
Qed.

Lemma pretty_N_length (k : nat) (x : N) :
  (x < 10 ^ N.of_nat k)%N → String.length (pretty x) ≤ S k.
Proof.
  intros Hx. unfold pretty, pretty_N. case_decide; [simpl; lia|].
  etrans; [by apply pretty_N_go_length|]. simpl. lia.
Qed.

(** A counter that never passed 2^53 prints in at most 16 digits. *)
Lemma pretty_counter_len (c : N) : (c ≤ 2 ^ 53)%N → (JS.len (pretty c) ≤ 17)%Z.
Proof.
  intros Hc. unfold JS.len.
  assert (String.length (pretty c) ≤ 17); [|lia].
  apply (pretty_N_length 16).
  change (10 ^ N.of_nat 16)%N with 10000000000000000%N.
  change (2 ^ 53)%N with 9007199254740992%N in Hc. lia.
Qed.

End StringFacts.

(** ** Safety of the path generator *)
Section PathGeneratorSafety.
Import PathGenerator.

Lemma counter_succ_bound (c : N) : (c ≤ 2 ^ 53)%N → (counter_succ c ≤ 2 ^ 53)%N.
Proof. unfold counter_succ. case_match; [|done]. apply N.ltb_lt in H. lia. Qed.

(** The loop only ever hands back a path that is not in the set. *)
Lemma makeUnique_loop_fresh fuel g path counter finalPath r :
  makeUnique_loop fuel g path counter finalPath = Some r →
  r ∉ existingPaths g.
Proof.
  revert path counter finalPath.
  induction fuel as [|fuel IH]; intros path counter finalPath; simpl; [done|].
  case_decide as Hin.
  - case_match; apply IH.
  - by intros [= <-].
Qed.

(** With the default maximum, a candidate that enters the loop within the
    maximum comes out within it. *)
Lemma makeUnique_loop_len fuel g path counter finalPath r :
  maxLength g = 100%Z →
  (counter ≤ 2 ^ 53)%N →
  (JS.len finalPath ≤ 100)%Z →
  makeUnique_loop fuel g path counter finalPath = Some r →
  (JS.len r ≤ 100)%Z.
Proof.
  intros Hmax. revert path counter finalPath.
  induction fuel as [|fuel IH]; intros path counter finalPath Hc Hlen;
    simpl; [done|].
  case_decide as Hin; [|by intros [= <-]].
  rewrite Hmax. pose proof (counter_succ_bound _ Hc) as Hc1.
  case_match eqn:Hover.
  - apply IH; [done|].
    rewrite len_app, len_substring0.
    pose proof (pretty_counter_len _ Hc1) as Hp.
    pose proof (len_nonneg path).
    rewrite len_app in *. change (JS.len separator) with 1%Z in *. lia.
  - apply IH; [done|]. apply Z.ltb_ge in Hover. done.
Qed.

Lemma initialPath_len g basePath :
  maxLength g = 100%Z → (JS.len (initialPath g basePath) ≤ 100)%Z.
Proof.
  intros Hmax. unfold initialPath. rewrite Hmax.
  case_match eqn:Hlong.
  - rewrite len_substring0. lia.
  - by apply Z.ltb_ge in Hlong.
Qed.

Lemma generatePath_spec fuel g title p g1 :
  generatePath fuel g title = Some (p, g1) →
  (p ∉ existingPaths g) ∧ maxLength g1 = maxLength g ∧
  existingPaths g1 = {[p]} ∪ existingPaths g ∧
  (maxLength g = 100%Z → (JS.len p ≤ 100)%Z).
Proof.
  unfold generatePath, makeUnique.
  destruct (makeUnique_loop _ _ _ _ _) as [r|] eqn:Hloop; [|done].
  intros [= <- <-]. simpl. split_and!; try done.
  - by eapply makeUnique_loop_fresh.
  - intros Hmax. eapply makeUnique_loop_len; [done| |by apply initialPath_len|done].
    by vm_compute.
Qed.

Lemma generatePaths_spec fuel titles : ∀ g slugs g',
  generatePaths fuel g titles = Some (slugs, g') →
  maxLength g' = maxLength g ∧
  existingPaths g' = list_to_set slugs ∪ existingPaths g ∧
  NoDup slugs ∧
  (Forall (λ p, p ∉ existingPaths g) slugs) ∧
  (maxLength g = 100%Z → Forall (λ p, (JS.len p ≤ 100)%Z) slugs).
Proof.
  induction titles as [|title rest IH]; intros g slugs g'; simpl.
  { intros [= <- <-]. split_and!; try done; [|constructor].
    simpl. by rewrite (left_id_L ∅ (∪)). }
  destruct (generatePath fuel g title) as [[p g1]|] eqn:Hone; [|done].
  destruct (generatePaths fuel g1 rest) as [[ps g2]|] eqn:Hrest; [|done].
  intros [= <- <-].
  apply generatePath_spec in Hone as (Hfresh & Hmax1 & Hset1 & Hlen1).
  apply IH in Hrest as (Hmax2 & Hset2 & Hnd & Hout & Hlen2).
  rewrite Hset1 in Hset2, Hout. split_and!.
  - congruence.
  - rewrite Hset2. simpl.
    by rewrite (assoc_L (∪) (list_to_set ps)), (comm_L (∪) (list_to_set ps)).
  - constructor; [|done]. intros Hin.
    rewrite Forall_forall in Hout. apply (Hout _ Hin).
    apply elem_of_union_l, elem_of_singleton. reflexivity.
  - constructor; [done|]. eapply Forall_impl; [done|].
    intros q Hq Hin. apply Hq. by apply elem_of_union_r.
  - intros Hmax. constructor; [by apply Hlen1|]. apply Hlen2. congruence.
Qed.

End PathGeneratorSafety.

(** ** Termination of the path generator

    Every candidate after the first ends in [-<n>] for the counter value [n]
    it was built from, and the numeral determines [n]; so the candidates the
    loop tries are pairwise distinct members of a finite set, except that the
    candidate built right after a re-truncation is tried twice. *)
Section PathGeneratorTermination.
Import PathGenerator.

Lemma pretty_N_char_no_dash (x : N) : pretty_N_char x ≠ "-"%char.
Proof. unfold pretty_N_char. by repeat case_match. Qed.

Lemma pretty_N_go_no_dash (x : N) (s : string) :
  no_dash s → no_dash (pretty_N_go x s).
Proof.
  revert s. induction (N.lt_wf_0 x) as [x _ IH]; intros s Hs.
  destruct (decide (x = 0%N)) as [->|Hne]; [by rewrite pretty_N_go_0|].
  rewrite pretty_N_go_step by lia.
  apply IH; [apply N.div_lt; lia|].
  split; [apply pretty_N_char_no_dash|done].
Qed.

Lemma pretty_N_no_dash (x : N) : no_dash (pretty x).
Proof.
  unfold pretty, pretty_N. case_decide; [by split|].
  by apply pretty_N_go_no_dash.
Qed.

Lemma no_dash_app_dash (p d : string) : ¬ no_dash (p +:+ "-" +:+ d).
Proof. induction p as [|c p IH]; simpl; intros [? ?]; [done|by apply IH]. Qed.

(** A string splits in one way only into a prefix, a dash and a dash-free
    rest. *)
Lemma dash_suffix_inj (p1 p2 d1 d2 : string) :
  no_dash d1 → no_dash d2 →
  p1 +:+ "-" +:+ d1 = p2 +:+ "-" +:+ d2 → p1 = p2 ∧ d1 = d2.
Proof.
  intros H1 H2. revert p2.
  induction p1 as [|c p1 IH]; intros [|c2 p2];
    rewrite ?string_app_cons, ?string_app_nil_l; intros Heq.
  - by injection Heq.
  - injection Heq as _ ->. by destruct (no_dash_app_dash p2 d2).
  - injection Heq as _ <-. by destruct (no_dash_app_dash p1 d1).
  - injection Heq as -> Heq. by destruct (IH p2 Heq) as [-> ->].
Qed.

Lemma numbered_inj (p1 p2 : string) (k1 k2 : N) :
  p1 +:+ separator +:+ pretty k1 = p2 +:+ separator +:+ pretty k2 → k1 = k2.
Proof.
  intros Heq.
  apply dash_suffix_inj in Heq as [_ Heq]; auto using pretty_N_no_dash.
  by apply (inj pretty) in Heq.
Qed.

Lemma numbered_below_mono (k k' : N) (v : string) :
  (k ≤ k')%N → numbered_below k v → numbered_below k' v.
Proof. intros Hk (p & m & -> & Hm). exists p, m. split; [done|lia]. Qed.

Lemma not_numbered_below (k : N) (path : string) :
  ¬ numbered_below k (path +:+ separator +:+ pretty k).
Proof. intros (p & m & Heq & Hm). apply numbered_inj in Heq. lia. Qed.

Lemma size_difference_insert (E V : gset string) (x : string) :
  x ∈ E → x ∉ V → size (E ∖ ({[x]} ∪ V)) < size (E ∖ V).
Proof.
  intros HE HV. apply subset_size. split.
  - intros y. rewrite !elem_of_difference, elem_of_union. tauto.
  - intros Hsub. specialize (Hsub x).
    rewrite !elem_of_difference, elem_of_union, elem_of_singleton in Hsub.
    tauto.
Qed.

Variable g : t.
Hypothesis Hmax : maxLength g = 100%Z.

(** The loop state holds the candidate [path-kf]; [again] tells that it was
    built by the re-truncation branch, where the counter was not advanced
    past it.  [V] collects the members of the set already tried. *)
Lemma makeUnique_loop_total (fuel : nat) :
  ∀ (n : nat) (V : gset string) (path : string) (counter kf : N) (again : bool),
    V ⊆ existingPaths g →
    size (existingPaths g ∖ V) ≤ n →
    (∀ v, v ∈ V → numbered_below kf v) →
    (if again
     then kf = counter ∧ (JS.len (path +:+ separator +:+ pretty kf) ≤ 100)%Z
     else (kf + 1)%N = counter) →
    2 * n + (if again then 2 else 1) ≤ fuel →
    (counter + N.of_nat (2 * n + (if again then 2 else 1)) ≤ 2 ^ 53)%N →
    is_Some (makeUnique_loop fuel g path counter (path +:+ separator +:+ pretty kf)).
Proof.
  induction fuel as [|fuel IH]; intros n V path counter kf again HV Hn Hbelow Hst Hfuel Hc.
  { destruct again; lia. }
  simpl. case_decide as Hin; [|by eexists].
  assert (path +:+ separator +:+ pretty kf ∉ V) as HnV.
  { intros HinV. apply Hbelow in HinV. by eapply not_numbered_below. }
  assert (counter_succ counter = (counter + 1)%N) as Hsucc.
  { unfold counter_succ. destruct (counter <? 2 ^ 53)%N eqn:Hlt; [done|].
    apply N.ltb_ge in Hlt. destruct again; lia. }
  rewrite Hsucc, Hmax.
  destruct again.
  - (* the same candidate is rebuilt and fits *)
    destruct Hst as [-> Hlen].
    assert ((100 <? JS.len (path +:+ separator +:+ pretty counter))%Z = false)
      as -> by by apply Z.ltb_ge.
    apply (IH n V _ _ counter false); try done; lia.
  - subst counter.
    pose proof (size_difference_insert _ _ _ Hin HnV) as Hsz.
    set (V' := {[path +:+ separator +:+ pretty kf]} ∪ V) in *.
    assert (V' ⊆ existingPaths g) as HV'.
    { intros y. unfold V'. rewrite elem_of_union, elem_of_singleton.
      intros [->|?]; [done|by apply HV]. }
    assert (∀ v, v ∈ V' → numbered_below (kf + 1) v) as Hbelow'.
    { intros v. unfold V'. rewrite elem_of_union, elem_of_singleton.
      intros [->|Hv].
      - exists path, kf. split; [done|lia].
      - eapply numbered_below_mono; [|by apply Hbelow]. lia. }
    destruct n as [|n]; [lia|].
    case_match eqn:Hover.
    + apply (IH n V' _ _ (kf + 1 + 1)%N true); try done; try lia.
      * intros v Hv. eapply numbered_below_mono; [|by apply Hbelow']. lia.
      * split; [done|].
        assert (kf + 1 + 1 ≤ 2 ^ 53)%N as Hle by lia.
        pose proof (pretty_counter_len _ Hle) as Hp.
        pose proof (len_nonneg path).
        rewrite !len_app, len_substring0, ?len_app.
        change (JS.len separator) with 1%Z. lia.
    + apply (IH n V' _ _ (kf + 1)%N false); try done; lia.
Qed.

(** [makeUnique] returns, given one unit of fuel for the first test and two
    for every member of the set. *)
Lemma makeUnique_total (fuel : nat) (basePath : string) :
  (N.of_nat (2 * size (existingPaths g) + 4) ≤ 2 ^ 53)%N →
  2 * size (existingPaths g) + 3 ≤ fuel →
  is_Some (makeUnique fuel g basePath).
Proof.
  intros Hsize Hfuel. unfold makeUnique.
  destruct fuel as [|fuel]; [lia|].
  simpl. case_decide as Hin; [|by eexists].
  change (counter_succ 1) with 2%N. rewrite Hmax.
  set (path := initialPath g basePath).
  case_match eqn:Hover.
  - apply (makeUnique_loop_total fuel (size (existingPaths g)) ∅ _ 2%N 2%N true);
      rewrite ?difference_empty_L; try done; try lia.
    split; [done|].
    pose proof (len_nonneg path).
    rewrite !len_app, len_substring0, ?len_app.
    change (JS.len separator) with 1%Z. change (JS.len (pretty 2%N)) with 1%Z.
    lia.
  - apply (makeUnique_loop_total fuel (size (existingPaths g)) ∅ _ 2%N 1%N false);
      rewrite ?difference_empty_L; try done; lia.
Qed.

End PathGeneratorTermination.

(** ** The numbered candidates when nothing overflows *)
Section PathGeneratorNumbering.
Import PathGenerator.

(** From the candidate numbered [k], with the candidates [k .. k+j-1] taken,
    the candidate [k+j] free and all of them within the maximum, the loop
    returns the candidate [k+j]. *)
Lemma makeUnique_loop_numbered (g : t) (path : string) (j : nat) :
  ∀ (k : N) (fuel : nat),
    maxLength g = 100%Z →
    (∀ i : N, (k ≤ i < k + N.of_nat j)%N → numbered path i ∈ existingPaths g) →
    numbered path (k + N.of_nat j) ∉ existingPaths g →
    (∀ i : N, (k < i ≤ k + N.of_nat j)%N → (JS.len (numbered path i) ≤ 100)%Z) →
    (k + N.of_nat j < 2 ^ 53)%N →
    j < fuel →
    makeUnique_loop fuel g path (k + 1) (numbered path k)
    = Some (numbered path (k + N.of_nat j)).
Proof.
  induction j as [|j IH]; intros k fuel Hmax Htaken Hfree Hfit Hk Hfuel;
    (destruct fuel as [|fuel]; [lia|]); simpl.
  - rewrite N.add_0_r in *. by rewrite decide_False.
  - rewrite decide_True by (apply Htaken; lia).
    assert (counter_succ (k + 1) = (k + 1 + 1)%N) as ->.
    { unfold counter_succ. destruct (k + 1 <? 2 ^ 53)%N eqn:Hlt; [done|].
      apply N.ltb_ge in Hlt. lia. }
    rewrite Hmax.
    assert ((100 <? JS.len (path +:+ separator +:+ pretty (k + 1)%N))%Z = false)
      as ->.
    { apply Z.ltb_ge, (Hfit (k + 1)%N). lia. }
    replace (k + N.of_nat (S j))%N with (k + 1 + N.of_nat j)%N in * by lia.
    apply IH; try done; try lia.
    + intros i Hi. apply Htaken. lia.
    + intros i Hi. apply Hfit. lia.
Qed.

(** The first collision of a base path short enough for [-1]. *)
Lemma makeUnique_first_collision (g : t) (basePath : string) (fuel : nat) :
  maxLength g = 100%Z →
  (JS.len basePath ≤ 98)%Z →
  basePath ∈ existingPaths g →
  basePath +:+ "-1" ∉ existingPaths g →
  2 ≤ fuel →
  makeUnique fuel g basePath = Some (basePath +:+ "-1").
Proof.
  intros Hmax Hlen Hin Hfree Hfuel. unfold makeUnique, initialPath.
  rewrite Hmax.
  assert ((100 <? JS.len basePath)%Z = false) as -> by (apply Z.ltb_ge; lia).
  destruct fuel as [|[|fuel]]; try lia. simpl.
  rewrite decide_True by done. rewrite Hmax.
  change (pretty 1%N) with "1".
  assert ((100 <? JS.len (basePath +:+ separator +:+ "1"))%Z = false) as ->.
  { apply Z.ltb_ge. rewrite !len_app. change (JS.len separator) with 1%Z.
    change (JS.len "1") with 1%Z. lia. }
  change (basePath +:+ separator +:+ "1") with (basePath +:+ "-1").
  by rewrite decide_False.
Qed.

End PathGeneratorNumbering.

(** ** Results on the path generator *)
Section PathGeneratorResults.
Import PathGenerator NewsActions.

(** A batch returns when the counter has room for two tries per path, the
    ones of the batch included. *)
Lemma generatePaths_total (titles : list string) :
  ∀ (g : t) (fuel : nat),
    maxLength g = 100%Z →
    (N.of_nat (2 * (size (existingPaths g) + length titles) + 4) ≤ 2 ^ 53)%N →
    2 * (size (existingPaths g) + length titles) + 3 ≤ fuel →
    is_Some (generatePaths fuel g titles).
Proof.
  induction titles as [|title rest IH]; intros g fuel Hmax Hroom Hfuel; simpl.
  { by eexists. }
  simpl in Hroom, Hfuel.
  destruct (makeUnique_total g Hmax fuel (slugify title)) as [p Hp]; [lia|lia|].
  unfold generatePath at 1. rewrite Hp.
  set (g1 := {| maxLength := maxLength g;
                existingPaths := {[p]} ∪ existingPaths g |}).
  assert (size (existingPaths g1) = S (size (existingPaths g))) as Hsize.
  { unfold makeUnique in Hp. apply makeUnique_loop_fresh in Hp.
    simpl. rewrite size_union, size_singleton; [done|].
    intros q Hq%elem_of_singleton Hin. by subst q. }
  destruct (IH g1 fuel) as [[ps g2] Hrest]; [done|lia|lia|].
  rewrite Hrest. by eexists.
Qed.

Lemma generatePath_free (g : t) (title : string) (fuel : nat) :
  initialPath g (slugify title) ∉ existingPaths g →
  fst <$> generatePath (S fuel) g title = Some (initialPath g (slugify title)).
Proof.
  intros Hfree. unfold generatePath, makeUnique. simpl.
  by rewrite decide_False.
Qed.

End PathGeneratorResults.

(** ** Claims about the path generator *)
Section PathGeneratorClaims.
Import PathGenerator NewsActions.

(** C2.  For every batch of [generatePath] calls on one instance built with
    the default maximum length, whatever the titles and the paths already in
    the set: the paths the calls return are pairwise distinct and each is at
    most 100 long; and the batch does return when twice the number of paths,
    used and asked for, is below 2^53. *)
Theorem generatePaths_distinct_bounded (g : t) (titles : list string) :
  maxLength g = 100%Z →
  (∀ (fuel : nat) (slugs : list string) (g' : t),
      generatePaths fuel g titles = Some (slugs, g') →
      NoDup slugs ∧ Forall (λ p, (JS.len p ≤ 100)%Z) slugs) ∧
  ((N.of_nat (2 * (size (existingPaths g) + length titles) + 4) ≤ 2 ^ 53)%N →
   ∃ (fuel : nat) (slugs : list string) (g' : t),
     generatePaths fuel g titles = Some (slugs, g')).
Proof.
  intros Hmax. split.
  - intros fuel slugs g' Hrun.
    apply generatePaths_spec in Hrun as (_ & _ & Hnd & _ & Hlen). auto.
  - intros Hroom.
    destruct (generatePaths_total titles g
                (2 * (size (existingPaths g) + length titles) + 3) Hmax Hroom)
      as [[slugs g'] Hrun]; [done|].
    by exists (2 * (size (existingPaths g) + length titles) + 3), slugs, g'.
Qed.

Lemma generatePaths_distinct_bounded_witness :
  maxLength (new_default ["breaking-news"]) = 100%Z ∧
  generatePaths 5 (new_default ["breaking-news"])
    ["Breaking News"; "breaking news!"; "Breaking_News"]
  = Some (["breaking-news-1"; "breaking-news-2"; "breaking-news-3"],
          {| maxLength := 100;
             existingPaths := {[ "breaking-news-3" ]} ∪ ({[ "breaking-news-2" ]}
               ∪ ({[ "breaking-news-1" ]} ∪ list_to_set ["breaking-news"])) |}) ∧
  (NoDup ["breaking-news-1"; "breaking-news-2"; "breaking-news-3"] ∧
   Forall (λ p, (JS.len p ≤ 100)%Z)
     ["breaking-news-1"; "breaking-news-2"; "breaking-news-3"]) ∧
  ∃ (fuel : nat) (slugs : list string) (g' : t),
    generatePaths fuel (new_default ["breaking-news"])
      ["Breaking News"; "breaking news!"; "Breaking_News"] = Some (slugs, g').
Proof.
  assert (generatePaths 5 (new_default ["breaking-news"])
            ["Breaking News"; "breaking news!"; "Breaking_News"]
          = Some (["breaking-news-1"; "breaking-news-2"; "breaking-news-3"],
                  {| maxLength := 100;
                     existingPaths := {[ "breaking-news-3" ]}
                       ∪ ({[ "breaking-news-2" ]}
                       ∪ ({[ "breaking-news-1" ]} ∪ list_to_set ["breaking-news"])) |}))
    as Hrun by (vm_compute; reflexivity).
  split; [reflexivity|]. split; [exact Hrun|].
  destruct (generatePaths_distinct_bounded (new_default ["breaking-news"])
              ["Breaking News"; "breaking news!"; "Breaking_News"] eq_refl)
    as [Hsafe Hreturns].
  split; [exact (Hsafe 5 _ _ Hrun)|].
  apply Hreturns. by vm_compute.
Defined.

(** C4.  Where the claim fails: a base path of 99 letters that is taken.  The
    candidate with [-1] overflows, and the re-truncation branch builds its
    suffix from the counter it has already advanced, so the path returned
    ends in [-2] although the 98 letters with [-1] are free and fit. *)
Theorem makeUnique_retruncation_skips_number :
  makeUnique 2 (new_default [letters 99]) (letters 99)
  = Some (letters 98 +:+ "-2") ∧
  (letters 98 +:+ "-1" ∉ existingPaths (new_default [letters 99])) ∧
  JS.len (letters 98 +:+ "-1") = 100%Z.
Proof.
  split; [by vm_compute|]. split; [|by vm_compute].
  unfold new_default, new. simpl. rewrite elem_of_union, elem_of_singleton.
  intros [Heq|Hin]; [by vm_compute in Heq|]. by apply not_elem_of_empty in Hin.
Qed.

(** C5.  [updateNews] with a title whose slug is the item's current path
    (itself within the maximum, as every generated path is) computes that same
    path again: the item's own path is not among the paths it is compared
    with, so no suffix is added. *)
Theorem updateNews_keeps_own_path (fuel : nat) (existing : list string)
    (current : CurrentNews) (newTitle : string) :
  slugify newTitle = path current →
  (JS.len (path current) ≤ 100)%Z →
  1 ≤ fuel →
  updateNews_path fuel existing (Some current) newTitle = Some (path current).
Proof.
  intros Hslug Hlen Hfuel. destruct fuel as [|fuel]; [lia|].
  unfold updateNews_path.
  assert (initialPath (new_default (filteredPaths existing (Some current)))
            (slugify newTitle) = path current) as Hinit.
  { unfold initialPath. rewrite Hslug. simpl.
    assert ((100 <? JS.len (path current))%Z = false) as ->; [|done].
    by apply Z.ltb_ge. }
  rewrite generatePath_free; rewrite Hinit; [done|].
  unfold new_default, new, filteredPaths. simpl.
  rewrite elem_of_list_to_set, list_elem_of_filter. simpl. by intros [Hne _].
Qed.

Lemma updateNews_keeps_own_path_witness :
  slugify "Breaking News" = "breaking-news" ∧
  (JS.len "breaking-news" ≤ 100)%Z ∧
  1 ≤ 1 ∧
  updateNews_path 1 ["other"; "breaking-news"; "breaking-news-1"]
    (Some {| path := "breaking-news"; title := "Breaking news" |})
    "Breaking News"
  = Some "breaking-news".
Proof.
  split; [reflexivity|]. split; [by vm_compute|]. split; [exact (le_n 1)|].
  apply (updateNews_keeps_own_path 1 ["other"; "breaking-news"; "breaking-news-1"]
           {| path := "breaking-news"; title := "Breaking news" |} "Breaking News").
  - reflexivity.
  - by vm_compute.
  - exact (le_n 1).
Defined.

(** C8.  The slug of "Hello, World!" is "hello-world"; and a title whose slug
    "breaking-news" is in the set, with "breaking-news-1" still free, gets the
    path "breaking-news-1". *)
Theorem slug_examples :
  slugify "Hello, World!" = "hello-world" ∧
  ∀ (g : t) (newTitle : string) (fuel : nat),
    maxLength g = 100%Z →
    slugify newTitle = "breaking-news" →
    "breaking-news" ∈ existingPaths g →
    "breaking-news-1" ∉ existingPaths g →
    2 ≤ fuel →
    fst <$> generatePath fuel g newTitle = Some "breaking-news-1".
Proof.
  split; [reflexivity|].
  intros g newTitle fuel Hmax Hslug Hin Hfree Hfuel.
  unfold generatePath. rewrite Hslug.
  by rewrite (makeUnique_first_collision g "breaking-news" fuel).
Qed.

Lemma slug_examples_witness :
  slugify "Breaking News" = "breaking-news" ∧
  fst <$> generatePath 2 (new_default ["breaking-news"]) "Breaking News"
  = Some "breaking-news-1".
Proof.
  split; [reflexivity|].
  apply (proj2 slug_examples (new_default ["breaking-news"]) "Breaking News" 2).
  - reflexivity.
  - reflexivity.
  - unfold new_default, new. simpl.
    apply elem_of_union_l, elem_of_singleton. reflexivity.
  - unfold new_default, new. simpl. rewrite elem_of_union, elem_of_singleton.
    intros [Heq|Hin]; [discriminate Heq|]. by apply not_elem_of_empty in Hin.
  - exact (le_n 2).
Defined.

(** C10.  A slug longer than 100 is cut to its first 97 characters, and the
    loop that tests for collisions starts from the cut path; when that path is
    free it is the path returned, 97 long. *)
Theorem long_slug_truncated_to_97 (g : t) (newTitle : string) :
  maxLength g = 100%Z →
  (100 < JS.len (slugify newTitle))%Z →
  JS.len (JS.substring0 97 (slugify newTitle)) = 97%Z ∧
  (∀ fuel : nat,
      makeUnique fuel g (slugify newTitle)
      = makeUnique_loop fuel g (JS.substring0 97 (slugify newTitle)) 1
          (JS.substring0 97 (slugify newTitle))) ∧
  (JS.substring0 97 (slugify newTitle) ∉ existingPaths g →
   ∀ fuel : nat,
     fst <$> generatePath (S fuel) g newTitle
     = Some (JS.substring0 97 (slugify newTitle))).
Proof.
  intros Hmax Hlong.
  assert (initialPath g (slugify newTitle) = JS.substring0 97 (slugify newTitle))
    as Hinit.
  { unfold initialPath. rewrite Hmax.
    by assert ((100 <? JS.len (slugify newTitle))%Z = true) as ->
      by by apply Z.ltb_lt. }
  split_and!.
  - rewrite len_substring0. lia.
  - intros fuel. unfold makeUnique. by rewrite Hinit.
  - intros Hfree fuel. rewrite <- Hinit in *. by apply generatePath_free.
Qed.

Lemma long_slug_truncated_to_97_witness :
  maxLength (new_default [letters 100]) = 100%Z ∧
  (100 < JS.len (slugify (letters 101)))%Z ∧
  JS.len (JS.substring0 97 (slugify (letters 101))) = 97%Z ∧
  fst <$> generatePath 1 (new_default [letters 100]) (letters 101)
  = Some (letters 97).
Proof.
  assert ((100 < JS.len (slugify (letters 101)))%Z) as Hlong by by vm_compute.
  destruct (long_slug_truncated_to_97 (new_default [letters 100]) (letters 101)
              eq_refl Hlong) as (Hlen & _ & Hfree).
  split; [reflexivity|]. split; [exact Hlong|]. split; [exact Hlen|].
  replace (letters 97) with (JS.substring0 97 (slugify (letters 101)))
    by (vm_compute; reflexivity).
  apply Hfree.
  unfold new_default, new. simpl. rewrite elem_of_union, elem_of_singleton.
  intros [Heq|Hin]; [by vm_compute in Heq|]. by apply not_elem_of_empty in Hin.
Defined.

End PathGeneratorClaims.

(** ** Scores move with the comments *)
Section CommentScores.
Import Store CommentActions.

Variable score_ok : Z → bool.

Section FindFirst.
Context {A : Type} (cond : A → bool) (table : gmap string A).

Lemma findFirst_Some (k : string) (row : A) :
  findFirst cond table = Some (k, row) →
  table !! k = Some row ∧ cond row = true.
Proof.
  unfold findFirst. intros Hfind. apply List.find_some in Hfind as [Hin Hc].
  split; [|done].
  by apply elem_of_map_to_list, list_elem_of_In.
Qed.

Lemma findFirst_sole (k : string) (row : A) :
  table !! k = Some row → cond row = true →
  (∀ k' r, table !! k' = Some r → cond r = true → k' = k) →
  findFirst cond table = Some (k, row).
Proof.
  intros Hk Hc Hsole.
  destruct (findFirst cond table) as [[k' r]|] eqn:Hfind.
  - apply findFirst_Some in Hfind as [Hk' Hc'].
    assert (k' = k) as -> by eauto. congruence.
  - unfold findFirst in Hfind.
    apply List.find_none with (x := (k, row)) in Hfind; simpl in *.
    + congruence.
    + by apply list_elem_of_In, elem_of_map_to_list.
Qed.

Lemma at_most_one_sole (k1 k2 : string) (r1 r2 : A) :
  at_most_one cond table = true →
  table !! k1 = Some r1 → cond r1 = true →
  table !! k2 = Some r2 → cond r2 = true →
  k1 = k2.
Proof.
  unfold at_most_one. intros Hone%bool_decide_eq_true_1 H1 Hc1 H2 Hc2.
  assert ((k1, r1) ∈ filter (λ row : string * A, cond row.2) (map_to_list table))
    as Hin1.
  { apply list_elem_of_filter. split; [simpl; by rewrite Hc1|].
    by apply elem_of_map_to_list. }
  assert ((k2, r2) ∈ filter (λ row : string * A, cond row.2) (map_to_list table))
    as Hin2.
  { apply list_elem_of_filter. split; [simpl; by rewrite Hc2|].
    by apply elem_of_map_to_list. }
  destruct (filter _ _) as [|x [|y l]]; simpl in Hone; [|  |lia].
  - by apply elem_of_nil in Hin1.
  - apply list_elem_of_singleton in Hin1, Hin2. congruence.
Qed.
End FindFirst.

Lemma sole_news_intro (news : string) (p : Z) (s : t) :
  at_most_one (λ r, bool_decide (newsId r = news)) (newsInteractions s) = true →
  popularity_of news s = Some p →
  ∃ key, sole_news news key p s.
Proof.
  unfold popularity_of. intros Hone Hp.
  destruct (findFirst _ _) as [[key [n p']]|] eqn:Hfind; [|done].
  injection Hp as ->. apply findFirst_Some in Hfind as [Hkey Hc].
  apply bool_decide_eq_true_1 in Hc. simpl in Hc. subst n.
  exists key. split; [done|]. intros k r Hk Hr.
  eapply at_most_one_sole; [done|done| |done|]; by apply bool_decide_eq_true_2.
Qed.

Lemma sole_user_intro (user : User) (c : Z) (s : t) :
  at_most_one (λ r, bool_decide (userId r = id user)) (userInteractions s) = true →
  contribution_of user s = Some c →
  ∃ key, sole_user user key c s.
Proof.
  unfold contribution_of. intros Hone Hc.
  destruct (findFirst _ _) as [[key [u c']]|] eqn:Hfind; [|done].
  injection Hc as ->. apply findFirst_Some in Hfind as [Hkey Hu].
  apply bool_decide_eq_true_1 in Hu. simpl in Hu. subst u.
  exists key. split; [done|]. intros k r Hk Hr.
  eapply at_most_one_sole; [done|done| |done|]; by apply bool_decide_eq_true_2.
Qed.

Lemma sole_news_find (news key : string) (p : Z) (s : t) :
  sole_news news key p s →
  findFirst (λ r, bool_decide (newsId r = news)) (newsInteractions s)
  = Some (key, {| newsId := news; popularityScore := p |}).
Proof.
  intros [Hkey Hsole]. apply findFirst_sole; [done|by apply bool_decide_eq_true_2|].
  intros k r Hk Hc%bool_decide_eq_true_1. eauto.
Qed.

Lemma sole_user_find (user : User) (key : string) (c : Z) (s : t) :
  sole_user user key c s →
  findFirst (λ r, bool_decide (userId r = id user)) (userInteractions s)
  = Some (key, {| userId := id user; contributionScore := c |}).
Proof.
  intros [Hkey Hsole]. apply findFirst_sole; [done|by apply bool_decide_eq_true_2|].
  intros k r Hk Hc%bool_decide_eq_true_1. eauto.
Qed.

(** The writes, one table at a time. *)
Lemma update_popularity_Ok (key : string) (delta : Z) (s s' : t) :
  update_popularity score_ok key delta s = Ok s' →
  ∃ row, newsInteractions s !! key = Some row ∧
    newsInteractions s' =
      <[key := {| newsId := newsId row;
                  popularityScore := (popularityScore row + delta)%Z |}]>
        (newsInteractions s) ∧
    userInteractions s' = userInteractions s ∧ comments s' = comments s.
Proof.
  unfold update_popularity. destruct (newsInteractions s !! key) as [row|]; [|done].
  destruct (score_ok _); [|done]. intros [= <-]. by exists row.
Qed.

Lemma update_contribution_Ok (key : string) (delta : Z) (s s' : t) :
  update_contribution score_ok key delta s = Ok s' →
  ∃ row, userInteractions s !! key = Some row ∧
    userInteractions s' =
      <[key := {| userId := userId row;
                  contributionScore := (contributionScore row + delta)%Z |}]>
        (userInteractions s) ∧
    newsInteractions s' = newsInteractions s ∧ comments s' = comments s.
Proof.
  unfold update_contribution. destruct (userInteractions s !! key) as [row|]; [|done].
  destruct (score_ok _); [|done]. intros [= <-]. by exists row.
Qed.

Lemma sole_news_update (news key : string) (p delta : Z) (s s' : t) :
  sole_news news key p s →
  update_popularity score_ok key delta s = Ok s' →
  sole_news news key (p + delta) s'.
Proof.
  intros [Hkey Hsole] (row & Hrow & Hn & _)%update_popularity_Ok.
  rewrite Hkey in Hrow. injection Hrow as <-. simpl in Hn.
  unfold sole_news. rewrite Hn. split; [by rewrite lookup_insert_eq|].
  intros k r. destruct (decide (k = key)) as [->|Hne]; [done|].
  rewrite lookup_insert_ne by done. apply Hsole.
Qed.

Lemma sole_user_update (user : User) (key : string) (c delta : Z) (s s' : t) :
  sole_user user key c s →
  update_contribution score_ok key delta s = Ok s' →
  sole_user user key (c + delta) s'.
Proof.
  intros [Hkey Hsole] (row & Hrow & Hn & _)%update_contribution_Ok.
  rewrite Hkey in Hrow. injection Hrow as <-. simpl in Hn.
  unfold sole_user. rewrite Hn. split; [by rewrite lookup_insert_eq|].
  intros k r. destruct (decide (k = key)) as [->|Hne]; [done|].
  rewrite lookup_insert_ne by done. apply Hsole.
Qed.

End CommentScores.

Section CommentSteps.
Import Store CommentActions CommentCounts.

Variable score_ok : Z → bool.

Lemma transaction_Throw (body : t → result t) (s s' : t) (m : string) :
  transaction body s = (s', Throw m) → s' = s.
Proof. unfold transaction. destruct (body s); by intros [= <-]. Qed.

Lemma transaction_Ok (body : t → result t) (s s' : t) :
  transaction body s = (s', Ok ()) → body s = Ok s'.
Proof. unfold transaction. destruct (body s); by intros [= <-]. Qed.

(** A call that throws leaves the store as it was. *)
Lemma addComment_Throw session data newId (s s' : t) (m : string) :
  addComment score_ok session data newId s = (s', Throw m) → s' = s.
Proof.
  unfold addComment. destruct (validate data); [|by intros [= <-]].
  destruct session as [user|]; [|by intros [= <-]].
  apply transaction_Throw.
Qed.

Lemma deleteComment_Throw session commentId (s s' : t) (m : string) :
  deleteComment score_ok session commentId s = (s', Throw m) → s' = s.
Proof.
  unfold deleteComment. destruct session as [user|]; [|by intros [= <-]].
  destruct (findComment commentId s) as [[[[c ni] ui]|]|]; try by intros [= <-].
  case_bool_decide; [apply transaction_Throw|by intros [= <-]].
Qed.

Lemma sole_news_frame (news key : string) (p : Z) (s s' : t) :
  newsInteractions s' = newsInteractions s →
  sole_news news key p s → sole_news news key p s'.
Proof. unfold sole_news. by intros ->. Qed.

Lemma sole_user_frame (user : User) (key : string) (c : Z) (s s' : t) :
  userInteractions s' = userInteractions s →
  sole_user user key c s → sole_user user key c s'.
Proof. unfold sole_user. by intros ->. Qed.

Lemma create_comment_Ok (newId : string) (row : Comment) (s s' : t) :
  create_comment newId row s = Ok s' →
  newsInteractions s' = newsInteractions s ∧
  userInteractions s' = userInteractions s ∧
  comments s' = <[newId := row]> (comments s).
Proof.
  unfold create_comment. destruct (comments s !! newId); [done|].
  by intros [= <-].
Qed.

Lemma delete_comment_Ok (commentId : string) (s s' : t) :
  delete_comment commentId s = Ok s' →
  newsInteractions s' = newsInteractions s ∧
  userInteractions s' = userInteractions s ∧
  comments s' = delete commentId (comments s).
Proof.
  unfold delete_comment. destruct (comments s !! commentId); [|done].
  by intros [= <-].
Qed.

(** The three writes of either transaction, with both rows resolved. *)
Lemma writes_move_scores (news : string) (user : User) (kn ku : string)
    (p c delta : Z) (s1 s' : t) :
  sole_news news kn p s1 → sole_user user ku c s1 →
  (tx2 ← update_popularity score_ok kn delta s1;
   update_contribution score_ok ku delta tx2) = Ok s' →
  sole_news news kn (p + delta) s' ∧ sole_user user ku (c + delta) s'.
Proof.
  intros Hn Hu Hbody.
  destruct (update_popularity score_ok kn delta s1) as [s2|] eqn:Hpop; [|done].
  change (update_contribution score_ok ku delta s2 = Ok s') in Hbody.
  pose proof (sole_news_update _ _ _ _ _ _ _ Hn Hpop) as Hn2.
  apply update_popularity_Ok in Hpop as (_ & _ & _ & Hu2 & _).
  pose proof (sole_user_frame _ _ _ _ _ Hu2 Hu) as Hu2'.
  pose proof (sole_user_update _ _ _ _ _ _ _ Hu2' Hbody) as Hu3.
  apply update_contribution_Ok in Hbody as (_ & _ & _ & Hn3 & _).
  split; [|done]. by eapply sole_news_frame.
Qed.

(** [addComment] for the item and by the user: both scores go up by 2. *)
Lemma addComment_Ok (news : string) (user : User) (kn ku : string) (p c : Z)
    (txt newId : string) (s s' : t) :
  sole_news news kn p s → sole_user user ku c s →
  addComment score_ok (Some user)
    {| input_text := txt; input_newsId := news |} newId s = (s', Ok ()) →
  sole_news news kn (p + 2) s' ∧ sole_user user ku (c + 2) s'.
Proof.
  intros Hn Hu. unfold addComment. destruct (validate _); [|by intros [= <-]].
  intros Hbody%transaction_Ok. simpl in Hbody.
  rewrite (sole_news_find _ _ _ _ Hn), (sole_user_find _ _ _ _ Hu) in Hbody.
  destruct (create_comment _ _ s) as [s1|] eqn:Hcreate; [|done].
  apply create_comment_Ok in Hcreate as (Hn1 & Hu1 & _).
  eapply writes_move_scores; [| |exact Hbody].
  - by eapply sole_news_frame.
  - by eapply sole_user_frame.
Qed.

(** [deleteComment] of a comment of the item, by the user: both go down by 2. *)
Lemma deleteComment_Ok (news : string) (user : User) (kn ku : string) (p c : Z)
    (commentId : string) (s s' : t) :
  sole_news news kn p s → sole_user user ku c s →
  comment_news commentId s = Some news →
  deleteComment score_ok (Some user) commentId s = (s', Ok ()) →
  sole_news news kn (p + -2) s' ∧ sole_user user ku (c + -2) s'.
Proof.
  intros Hn Hu. unfold comment_news, deleteComment, findComment.
  destruct (comments s !! commentId) as [cm|]; simpl; [|done].
  destruct (newsInteractions s !! newsInteractionId cm) as [ni|] eqn:Hni;
    simpl; [|done].
  intros [= Hnews].
  destruct (userInteractions s !! userInteractionId cm) as [ui|] eqn:Hui;
    [|by intros [= <-]].
  case_bool_decide as Hauthor; [|by intros [= <-]].
  intros Hbody%transaction_Ok.
  assert (newsInteractionId cm = kn) as Hkn by (eapply Hn; done).
  assert (userInteractionId cm = ku) as Hku by (eapply Hu; done).
  rewrite Hkn, Hku in Hbody.
  destruct (delete_comment commentId s) as [s1|] eqn:Hdel; [|done].
  apply delete_comment_Ok in Hdel as (Hn1 & Hu1 & _).
  eapply writes_move_scores; [| |exact Hbody].
  - by eapply sole_news_frame.
  - by eapply sole_user_frame.
Qed.

Lemma deleteComment_dangling (user : User) (commentId : string) (s s' : t) :
  comment_news commentId s = None →
  deleteComment score_ok (Some user) commentId s = (s', Ok ()) → False.
Proof.
  unfold comment_news, deleteComment, findComment.
  destruct (comments s !! commentId) as [cm|]; simpl; [|done].
  destruct (newsInteractions s !! newsInteractionId cm) as [ni|]; simpl; done.
Qed.

Lemma session_run_scores (news : string) (user : User) (kn ku : string)
    (rs : list request) :
  ∀ (s s' : t) (p c : Z) (adds deletes : nat),
    sole_news news kn p s → sole_user user ku c s →
    session_run score_ok user news rs s = Some (s', adds, deletes) →
    sole_news news kn (p + 2 * (Z.of_nat adds - Z.of_nat deletes)) s' ∧
    sole_user user ku (c + 2 * (Z.of_nat adds - Z.of_nat deletes)) s'.
Proof.
  induction rs as [|r rest IH]; intros s s' p c adds deletes Hn Hu; simpl.
  { intros [= <- <- <-]. by rewrite !Z.add_0_r. }
  destruct (serve score_ok user news r s) as [[s1 outcome]|] eqn:Hserve; [|done].
  destruct (session_run score_ok user news rest s1) as [[[s2 a] d]|] eqn:Hrest;
    [|done].
  destruct outcome as [[]|m].
  - destruct r as [txt newId|commentId]; intros [= <- <- <-];
      unfold serve in Hserve.
    + apply (inj Some) in Hserve as Hadd.
      destruct (addComment_Ok _ _ _ _ _ _ _ _ _ _ Hn Hu Hadd) as [Hn1 Hu1].
      destruct (IH _ _ _ _ _ _ Hn1 Hu1 Hrest) as [Hn2 Hu2].
      replace (p + 2 * (Z.of_nat (S a) - Z.of_nat d))%Z
        with (p + 2 + 2 * (Z.of_nat a - Z.of_nat d))%Z by lia.
      replace (c + 2 * (Z.of_nat (S a) - Z.of_nat d))%Z
        with (c + 2 + 2 * (Z.of_nat a - Z.of_nat d))%Z by lia.
      done.
    + destruct (comment_news commentId s) as [n|] eqn:Hcn.
      * case_bool_decide as Hsame; [subst n|done].
        apply (inj Some) in Hserve as Hdel.
        destruct (deleteComment_Ok _ _ _ _ _ _ _ _ _ Hn Hu Hcn Hdel) as [Hn1 Hu1].
        destruct (IH _ _ _ _ _ _ Hn1 Hu1 Hrest) as [Hn2 Hu2].
        replace (p + 2 * (Z.of_nat a - Z.of_nat (S d)))%Z
          with (p + -2 + 2 * (Z.of_nat a - Z.of_nat d))%Z by lia.
        replace (c + 2 * (Z.of_nat a - Z.of_nat (S d)))%Z
          with (c + -2 + 2 * (Z.of_nat a - Z.of_nat d))%Z by lia.
        done.
      * apply (inj Some) in Hserve as Hdel.
        by destruct (deleteComment_dangling _ _ _ _ Hcn Hdel).
  - assert (s1 = s) as ->.
    { destruct r as [txt newId|commentId]; unfold serve in Hserve.
      - apply (inj Some) in Hserve. by eapply addComment_Throw.
      - destruct (comment_news commentId s) as [n|];
          [case_bool_decide; [|done]|];
          apply (inj Some) in Hserve; by eapply deleteComment_Throw. }
    intros Hret.
    assert (s2 = s' ∧ a = adds ∧ d = deletes) as (-> & -> & ->).
    { destruct r; by injection Hret. }
    by eapply IH.
Qed.

(** What a call writes, read back from its result. *)
Lemma addComment_inv (session : option User) (data : CommentInput)
    (newId : string) (s s' : Store.t) :
  addComment score_ok session data newId s = (s', Ok ()) →
  validate data = Ok () ∧
  ∃ user kn rn ku ru,
    session = Some user ∧
    findFirst (λ r, bool_decide (newsId r = input_newsId data))
      (newsInteractions s) = Some (kn, rn) ∧
    findFirst (λ r, bool_decide (userId r = id user))
      (userInteractions s) = Some (ku, ru) ∧
    comments s !! newId = None ∧
    score_ok (popularityScore rn + 2) = true ∧
    score_ok (contributionScore ru + 2) = true ∧
    s' = store_after_add s kn rn ku ru newId (input_text data).
Proof.
  unfold addComment. destruct (validate data) as [[]|]; [|by intros [= <-]].
  destruct session as [user|]; [|by intros [= <-]].
  intros Hbody%transaction_Ok. split; [done|].
  destruct (findFirst _ (newsInteractions s)) as [[kn rn]|] eqn:Hn; [|done].
  destruct (findFirst _ (userInteractions s)) as [[ku ru]|] eqn:Hu; [|done].
  exists user, kn, rn, ku, ru.
  pose proof (findFirst_Some _ _ _ _ Hn) as [Hkn _].
  pose proof (findFirst_Some _ _ _ _ Hu) as [Hku _].
  unfold create_comment in Hbody.
  destruct (comments s !! newId) eqn:Hnew; [done|].
  simpl in Hbody. unfold update_popularity in Hbody. simpl in Hbody.
  rewrite Hkn in Hbody.
  destruct (score_ok (popularityScore rn + 2)) eqn:Hp; [|done].
  simpl in Hbody. unfold update_contribution in Hbody. simpl in Hbody.
  rewrite Hku in Hbody.
  destruct (score_ok (contributionScore ru + 2)) eqn:Hc; [|done].
  injection Hbody as <-. by split_and!.
Qed.

Lemma deleteComment_inv (session : option User) (commentId : string)
    (s s' : Store.t) :
  deleteComment score_ok session commentId s = (s', Ok ()) →
  ∃ user c ni ui,
    session = Some user ∧
    comments s !! commentId = Some c ∧
    newsInteractions s !! newsInteractionId c = Some ni ∧
    userInteractions s !! userInteractionId c = Some ui ∧
    userId ui = id user ∧
    score_ok (popularityScore ni + -2) = true ∧
    score_ok (contributionScore ui + -2) = true ∧
    s' = store_after_delete s commentId c ni ui.
Proof.
  unfold deleteComment, findComment.
  destruct session as [user|]; [|by intros [= <-]].
  destruct (comments s !! commentId) as [c|] eqn:Hc; [|by intros [= <-]].
  destruct (newsInteractions s !! newsInteractionId c) as [ni|] eqn:Hni;
    [|by intros [= <-]].
  destruct (userInteractions s !! userInteractionId c) as [ui|] eqn:Hui;
    [|by intros [= <-]].
  case_bool_decide as Hauthor; [|by intros [= <-]].
  intros Hbody%transaction_Ok.
  exists user, c, ni, ui.
  unfold delete_comment in Hbody. rewrite Hc in Hbody. simpl in Hbody.
  unfold update_popularity in Hbody. simpl in Hbody. rewrite Hni in Hbody.
  destruct (score_ok (popularityScore ni + -2)) eqn:Hp; [|done].
  simpl in Hbody. unfold update_contribution in Hbody. simpl in Hbody.
  rewrite Hui in Hbody.
  destruct (score_ok (contributionScore ui + -2)) eqn:Hs; [|done].
  injection Hbody as <-. by split_and!.
Qed.

Lemma size_filter_insert (P : string * Comment → Prop) `{!∀ x, Decision (P x)}
    (m : gmap string Comment) (i : string) (x : Comment) :
  m !! i = None →
  size (filter P (<[i := x]> m))
  = size (filter P m) + (if decide (P (i, x)) then 1 else 0).
Proof.
  intros Hi. rewrite map_filter_insert. case_decide.
  - rewrite map_size_insert_None; [lia|].
    apply map_lookup_filter_None. by left.
  - rewrite delete_id by done. lia.
Qed.

Lemma size_filter_delete (P : string * Comment → Prop) `{!∀ x, Decision (P x)}
    (m : gmap string Comment) (i : string) (x : Comment) :
  m !! i = Some x →
  size (filter P m)
  = size (filter P (delete i m)) + (if decide (P (i, x)) then 1 else 0).
Proof.
  intros Hi. rewrite map_filter_delete, map_size_delete.
  destruct (filter P m !! i) as [y|] eqn:Hf.
  - apply map_lookup_filter_Some in Hf as [Hy HP].
    assert (y = x) as -> by congruence. rewrite decide_True by done.
    assert (size (filter P m) ≠ 0); [|lia].
    intros Hz%map_size_empty_inv.
    assert (filter P m !! i = Some x) as Hin by by apply map_lookup_filter_Some.
    by rewrite Hz in Hin.
  - rewrite decide_False; [simpl; lia|].
    intros HP. assert (filter P m !! i = Some x) as Hin
      by by apply map_lookup_filter_Some.
    congruence.
Qed.

Lemma counts_after_add (s : Store.t) (kn : string) (rn : NewsInteraction)
    (ku : string) (ru : UserInteraction) (newId txt : string) :
  comments s !! newId = None →
  size (comments (store_after_add s kn rn ku ru newId txt))
  = S (size (comments s)) ∧
  comments_on kn (store_after_add s kn rn ku ru newId txt)
  = S (comments_on kn s) ∧
  comments_by ku (store_after_add s kn rn ku ru newId txt)
  = S (comments_by ku s).
Proof.
  intros Hnew. unfold comments_on, comments_by, store_after_add. simpl.
  rewrite map_size_insert_None, !size_filter_insert by done. simpl.
  rewrite !decide_True by done. split_and!; lia.
Qed.

Lemma counts_after_delete (s : Store.t) (commentId : string) (c : Comment)
    (ni : NewsInteraction) (ui : UserInteraction) :
  comments s !! commentId = Some c →
  S (size (comments (store_after_delete s commentId c ni ui)))
  = size (comments s) ∧
  S (comments_on (newsInteractionId c) (store_after_delete s commentId c ni ui))
  = comments_on (newsInteractionId c) s ∧
  S (comments_by (userInteractionId c) (store_after_delete s commentId c ni ui))
  = comments_by (userInteractionId c) s.
Proof.
  intros Hc. unfold comments_on, comments_by, store_after_delete. simpl.
  rewrite (size_filter_delete
             (λ kc, newsInteractionId kc.2 = newsInteractionId c) _ _ _ Hc).
  rewrite (size_filter_delete
             (λ kc, userInteractionId kc.2 = userInteractionId c) _ _ _ Hc).
  simpl. rewrite !decide_True by done.
  rewrite map_size_delete, Hc.
  assert (size (comments s) ≠ 0).
  { intros Hz%map_size_empty_inv. by rewrite Hz in Hc. }
  split_and!; lia.
Qed.

(** Along a run, every call that returned added or removed one comment of the
    two rows. *)
Lemma session_run_counts (news : string) (user : User) (kn ku : string)
    (rs : list request) :
  ∀ (s s' : t) (p c : Z) (adds deletes : nat),
    sole_news news kn p s → sole_user user ku c s →
    session_run score_ok user news rs s = Some (s', adds, deletes) →
    size (comments s') + deletes = size (comments s) + adds ∧
    comments_on kn s' + deletes = comments_on kn s + adds ∧
    comments_by ku s' + deletes = comments_by ku s + adds.
Proof.
  induction rs as [|r rest IH]; intros s s' p c adds deletes Hn Hu; simpl.
  { by intros [= <- <- <-]. }
  destruct (serve score_ok user news r s) as [[s1 outcome]|] eqn:Hserve; [|done].
  destruct (session_run score_ok user news rest s1) as [[[s2 a] d]|] eqn:Hrest;
    [|done].
  destruct outcome as [[]|m].
  - destruct r as [txt newId|commentId]; intros [= <- <- <-];
      unfold serve in Hserve.
    + apply (inj Some) in Hserve as Hadd.
      destruct (addComment_Ok _ _ _ _ _ _ _ _ _ _ Hn Hu Hadd) as [Hn1 Hu1].
      destruct (IH _ _ _ _ _ _ Hn1 Hu1 Hrest) as (Hsize & Hon & Hby).
      apply addComment_inv in Hadd
        as (_ & user' & kn' & rn & ku' & ru & [= <-] & Hfn & Hfu & Hnew & _ & _ & ->).
      simpl in Hfn.
      rewrite (sole_news_find _ _ _ _ Hn) in Hfn. injection Hfn as <- _.
      rewrite (sole_user_find _ _ _ _ Hu) in Hfu. injection Hfu as <- _.
      destruct (counts_after_add s kn rn ku ru newId txt Hnew) as (Hs1 & Hon1 & Hby1).
      simpl in *. rewrite Hs1 in Hsize. rewrite Hon1 in Hon. rewrite Hby1 in Hby.
      split_and!; lia.
    + destruct (comment_news commentId s) as [n|] eqn:Hcn.
      * case_bool_decide as Hsame; [subst n|done].
        apply (inj Some) in Hserve as Hdel.
        destruct (deleteComment_Ok _ _ _ _ _ _ _ _ _ Hn Hu Hcn Hdel) as [Hn1 Hu1].
        destruct (IH _ _ _ _ _ _ Hn1 Hu1 Hrest) as (Hsize & Hon & Hby).
        apply deleteComment_inv in Hdel
          as (user' & cm & ni & ui & [= <-] & Hcm & Hni & Hui & Hauthor & _ & _ & ->).
        assert (newsInteractionId cm = kn) as Hkn.
        { unfold comment_news in Hcn. rewrite Hcm in Hcn. simpl in Hcn.
          rewrite Hni in Hcn. simpl in Hcn. injection Hcn as Hnews.
          by eapply Hn. }
        assert (userInteractionId cm = ku) as Hku by (by eapply Hu).
        destruct (counts_after_delete s commentId cm ni ui Hcm) as (Hs1 & Hon1 & Hby1).
        rewrite Hkn in Hon1. rewrite Hku in Hby1.
        split_and!; lia.
      * apply (inj Some) in Hserve as Hdel.
        by destruct (deleteComment_dangling _ _ _ _ Hcn Hdel).
  - assert (s1 = s) as ->.
    { destruct r as [txt newId|commentId]; unfold serve in Hserve.
      - apply (inj Some) in Hserve. by eapply addComment_Throw.
      - destruct (comment_news commentId s) as [n|];
          [case_bool_decide; [|done]|];
          apply (inj Some) in Hserve; by eapply deleteComment_Throw. }
    intros Hret.
    assert (s2 = s' ∧ a = adds ∧ d = deletes) as (-> & -> & ->).
    { destruct r; by injection Hret. }
    by eapply IH.
Qed.

End CommentSteps.

(** ** Claims about the comment actions *)
Section CommentClaims.
Import Store CommentActions CommentCounts.

(** C1.  Take a news item with one interaction row and a user with one
    user-interaction row, and any sequence of [addComment] calls for that item
    and [deleteComment] calls on comments of that item, all by that user.  If
    [adds] of the [addComment] calls and [deletes] of the [deleteComment] calls
    return, the item's popularity score and the user's contribution score both
    end [2 * (adds - deletes)] above their values before the sequence, and the
    comments moved with them, one per call that returned: the comment table,
    the comments on the item's row and the comments on the user's row each
    hold [adds] more and [deletes] fewer comments than before (calls that
    throw change nothing). *)
Theorem comment_scores_track_calls (score_ok : Z → bool) (user : User)
    (news : string) (rs : list request) (s0 s' : Store.t) (adds deletes : nat)
    (p0 c0 : Z) :
  at_most_one (λ r, bool_decide (newsId r = news)) (newsInteractions s0) = true →
  at_most_one (λ r, bool_decide (userId r = id user)) (userInteractions s0) = true →
  popularity_of news s0 = Some p0 →
  contribution_of user s0 = Some c0 →
  session_run score_ok user news rs s0 = Some (s', adds, deletes) →
  popularity_of news s' = Some (p0 + 2 * (Z.of_nat adds - Z.of_nat deletes))%Z ∧
  contribution_of user s' = Some (c0 + 2 * (Z.of_nat adds - Z.of_nat deletes))%Z ∧
  size (comments s') + deletes = size (comments s0) + adds ∧
  comments_of_news news s' + deletes = comments_of_news news s0 + adds ∧
  comments_of_user user s' + deletes = comments_of_user user s0 + adds.
Proof.
  intros Hone_n Hone_u Hp Hc Hrun.
  destruct (sole_news_intro _ _ _ Hone_n Hp) as [kn Hn].
  destruct (sole_user_intro _ _ _ Hone_u Hc) as [ku Hu].
  destruct (session_run_scores score_ok _ _ _ _ _ _ _ _ _ _ _ Hn Hu Hrun)
    as [Hn' Hu'].
  destruct (session_run_counts score_ok _ _ _ _ _ _ _ _ _ _ _ Hn Hu Hrun)
    as (Hsize & Hon & Hby).
  unfold popularity_of, contribution_of, comments_of_news, comments_of_user.
  rewrite (sole_news_find _ _ _ _ Hn'), (sole_user_find _ _ _ _ Hu').
  rewrite (sole_news_find _ _ _ _ Hn), (sole_user_find _ _ _ _ Hu).
  by split_and!.
Qed.

Lemma comment_scores_track_calls_witness :
  popularity_of "n1" sample_store = Some 10%Z ∧
  contribution_of {| id := "u1" |} sample_store = Some 6%Z ∧
  size (comments sample_store) = 1 ∧
  comments_of_news "n1" sample_store = 1 ∧
  comments_of_user {| id := "u1" |} sample_store = 0 ∧
  ∃ s', session_run int4 {| id := "u1" |} "n1" sample_calls sample_store
        = Some (s', 2, 1) ∧
    popularity_of "n1" s' = Some 12%Z ∧
    contribution_of {| id := "u1" |} s' = Some 8%Z ∧
    size (comments s') + 1 = 1 + 2 ∧
    comments_of_news "n1" s' + 1 = 1 + 2 ∧
    comments_of_user {| id := "u1" |} s' + 1 = 0 + 2.
Proof.
  split; [by vm_compute|]. split; [by vm_compute|].
  split; [by vm_compute|]. split; [by vm_compute|]. split; [by vm_compute|].
  destruct (session_run int4 {| id := "u1" |} "n1" sample_calls sample_store)
    as [[[s' a] d]|] eqn:Hrun; [|by vm_compute in Hrun].
  assert (a = 2 ∧ d = 1) as [-> ->].
  { vm_compute in Hrun. by injection Hrun. }
  exists s'. split; [reflexivity|].
  apply (comment_scores_track_calls int4 {| id := "u1" |} "n1" sample_calls
           sample_store s' 2 1 10 6); try done; by vm_compute.
Defined.

(** C3.  [deleteComment] by a signed-in user who is not the author of the
    comment throws 'Unauthorized' and returns the store it was given: the
    comment row and every score are as before. *)
Theorem deleteComment_non_author_rejected (score_ok : Z → bool) (s : Store.t)
    (user : User) (commentId : string) (c : Comment) (ni : NewsInteraction)
    (ui : UserInteraction) :
  comments s !! commentId = Some c →
  newsInteractions s !! newsInteractionId c = Some ni →
  userInteractions s !! userInteractionId c = Some ui →
  userId ui ≠ id user →
  deleteComment score_ok (Some user) commentId s = (s, Throw "Unauthorized").
Proof.
  intros Hc Hni Hui Hother. unfold deleteComment, findComment.
  rewrite Hc, Hni, Hui. by rewrite bool_decide_eq_false_2.
Qed.

Lemma deleteComment_non_author_rejected_witness :
  deleteComment int4 (Some {| id := "u1" |}) "c0" sample_store
  = (sample_store, Throw "Unauthorized").
Proof.
  apply (deleteComment_non_author_rejected int4 sample_store {| id := "u1" |} "c0"
           {| text := "first"; newsInteractionId := "ni1";
              userInteractionId := "ui2" |}
           {| newsId := "n1"; popularityScore := 10 |}
           {| userId := "u2"; contributionScore := 2 |});
    try (vm_compute; reflexivity).
  simpl. discriminate.
Defined.

End CommentClaims.

(** ** Claims about the dashboard *)
Section DashboardClaims.
Import Dashboard.

Lemma promise_all_imap {A B : Type} (f : nat → A → result B) (g : nat → A → B)
    (l : list A) :
  (∀ i x, f i x = Ok (g i x)) →
  promise_all (imap f l) = Ok (imap g l).
Proof.
  revert f g. induction l as [|x l IH]; intros f g Hfg; simpl; [done|].
  rewrite Hfg, (IH (f ∘ S) (g ∘ S)); [done|]. intros i y. apply Hfg.
Qed.

Variable LOG_ACTIONS : LogKey → string.
Variable getClerkUser : nat → option string → result (option ClerkUser).

Lemma formatActivity_Ok (call : nat) (log : Log) :
  formatActivity LOG_ACTIONS getClerkUser call log
  = Ok (resolved_activity LOG_ACTIONS getClerkUser call log).
Proof.
  unfold formatActivity, resolved_activity, resolved_user, try_catch.
  by destruct (getClerkUser call (clerkId (log_user log))) as [[profile|]|m].
Qed.

Lemma formatActivities_Ok (logs : list Log) :
  formatActivities LOG_ACTIONS getClerkUser logs
  = Ok (imap (resolved_activity LOG_ACTIONS getClerkUser) logs).
Proof. apply promise_all_imap, formatActivity_Ok. Qed.

End DashboardClaims.

(** C6.  [calculateTrend] is 0 when the previous count is 0, and
    [(current - previous) / previous * 100] in the arithmetic of JavaScript
    numbers otherwise; for 0 and 0 it is 0, neither NaN nor an infinity, and
    for 10 and 5 it is 100, as numbers and as counts turned into numbers. *)
Theorem calculateTrend_cases :
  (∀ current previous : float,
     (previous =? 0)%float = false →
     Dashboard.calculateTrend current previous
     = ((current - previous) / previous * 100)%float) ∧
  (∀ current previous : float,
     (previous =? 0)%float = true →
     Dashboard.calculateTrend current previous = 0%float) ∧
  Dashboard.calculateTrend 0 0 = 0%float ∧
  PrimFloat.is_nan (Dashboard.calculateTrend 0 0) = false ∧
  PrimFloat.is_infinity (Dashboard.calculateTrend 0 0) = false ∧
  Dashboard.calculateTrend 10 5 = 100%float ∧
  Dashboard.calculateTrend (Dashboard.number_of_count 0)
    (Dashboard.number_of_count 0) = 0%float ∧
  Dashboard.calculateTrend (Dashboard.number_of_count 10)
    (Dashboard.number_of_count 5) = 100%float.
Proof.
  split_and!; try (vm_compute; reflexivity).
  - intros current previous Hnz. unfold Dashboard.calculateTrend. by rewrite Hnz.
  - intros current previous Hz. unfold Dashboard.calculateTrend. by rewrite Hz.
Qed.

Lemma calculateTrend_cases_witness :
  Dashboard.calculateTrend 1 3 = ((1 - 3) / 3 * 100)%float ∧
  Dashboard.calculateTrend 7 0 = 0%float.
Proof.
  split.
  - apply (proj1 calculateTrend_cases 1%float 3%float). reflexivity.
  - apply (proj1 (proj2 calculateTrend_cases) 7%float 0%float). reflexivity.
Defined.




(** C9.  In the result of [getDashboardData], the trend of [totalReaders] is
    [calculateTrend] of today's and yesterday's article counts, the very
    value of the [totalNews] trend, whatever the like and reader counts. *)
Theorem totalReaders_trend_is_articles_trend
    (LOG_ACTIONS : Dashboard.LogKey → string)
    (getClerkUser : nat → option string → result (option Dashboard.ClerkUser))
    (q : Dashboard.Queries) :
  ∃ data : Dashboard.DashboardData,
    Dashboard.getDashboardData LOG_ACTIONS getClerkUser q = Ok data ∧
    Dashboard.trend (Dashboard.totalReaders (Dashboard.metrics data))
    = Dashboard.calculateTrend
        (Dashboard.number_of_count (Dashboard.todayArticles q))
        (Dashboard.number_of_count (Dashboard.yesterdayArticles q)) ∧
    Dashboard.trend (Dashboard.totalReaders (Dashboard.metrics data))
    = Dashboard.trend (Dashboard.totalNews (Dashboard.metrics data)).
Proof.
  unfold Dashboard.getDashboardData.
  rewrite formatActivities_Ok. by eexists.
Qed.

(** ** The shape of slugs *)
Section SlugShape.
Import PathGenerator Shape.

Lemma string_app_assoc (a b c : string) : (a +:+ b) +:+ c = a +:+ (b +:+ c).
Proof.
  induction a as [|x a IH]; [done|].
  by rewrite !string_app_cons, IH.
Qed.

Lemma string_app_nil_r (a : string) : a +:+ "" = a.
Proof. induction a as [|x a IH]; [done|]. by rewrite string_app_cons, IH. Qed.

Lemma rev_onto_app (s acc : string) : JS.rev_onto s acc = JS.rev s +:+ acc.
Proof.
  revert acc. induction s as [|c s IH]; intros acc; [done|].
  unfold JS.rev. simpl. rewrite (IH (String c acc)), (IH (String c "")).
  by rewrite string_app_assoc.
Qed.

Lemma rev_cons (c : ascii) (s : string) :
  JS.rev (String c s) = JS.rev s +:+ String c "".
Proof. unfold JS.rev at 1. simpl. apply rev_onto_app. Qed.

Lemma rev_app_single (s : string) (c : ascii) :
  JS.rev (s +:+ String c "") = String c (JS.rev s).
Proof.
  induction s as [|x s IH]; [done|].
  by rewrite string_app_cons, !rev_cons, IH.
Qed.

Lemma rev_involutive (s : string) : JS.rev (JS.rev s) = s.
Proof.
  induction s as [|c s IH]; [done|].
  by rewrite rev_cons, rev_app_single, IH.
Qed.

Lemma every_app (p : ascii → bool) (a b : string) :
  every p (a +:+ b) = every p a && every p b.
Proof.
  induction a as [|x a IH]; [done|].
  rewrite string_app_cons. simpl. by rewrite IH, andb_assoc.
Qed.

Lemma every_rev (p : ascii → bool) (s : string) : every p (JS.rev s) = every p s.
Proof.
  induction s as [|c s IH]; [done|].
  rewrite rev_cons, every_app, IH. simpl. by rewrite andb_true_r, andb_comm.
Qed.

Lemma every_impl (p q : ascii → bool) (s : string) :
  (∀ c, p c = true → q c = true) → every p s = true → every q s = true.
Proof.
  intros Hpq. induction s as [|c s IH]; [done|]. simpl.
  intros [Hc Hs]%andb_true_iff. by rewrite (Hpq c Hc), IH.
Qed.

Lemma every_trimStart (p : ascii → bool) (s : string) :
  every p s = true → every p (JS.trimStart s) = true.
Proof.
  induction s as [|c s IH]; [done|]. simpl.
  intros [Hc Hs]%andb_true_iff. destruct (JS.is_space c); [by apply IH|].
  simpl. by rewrite Hc, Hs.
Qed.

Lemma every_trim (p : ascii → bool) (s : string) :
  every p s = true → every p (JS.trim s) = true.
Proof.
  intros Hs. unfold JS.trim, JS.trimEnd.
  rewrite every_rev. apply every_trimStart. rewrite every_rev.
  by apply every_trimStart.
Qed.

Lemma every_keep (k q : ascii → bool) (s : string) :
  every q s = true → every (λ c, k c && q c) (JS.keep k s) = true.
Proof.
  induction s as [|c s IH]; [done|]. simpl.
  intros [Hc Hs]%andb_true_iff. destruct (k c) eqn:Hk; [|by apply IH].
  simpl. by rewrite Hk, Hc, IH.
Qed.

Lemma every_replace_runs (p q r : ascii → bool) (sep : string) (b : bool)
    (s : string) :
  every r sep = true →
  (∀ c, q c = true → p c = false → r c = true) →
  every q s = true →
  every r (JS.replace_runs p sep b s) = true.
Proof.
  intros Hsep Hqr. revert b. induction s as [|c s IH]; intros b; [done|]. simpl.
  intros [Hc Hs]%andb_true_iff. destruct (p c) eqn:Hp.
  - destruct b; [by apply IH|]. by rewrite every_app, Hsep, IH.
  - simpl. by rewrite (Hqr c Hc Hp), IH.
Qed.

Lemma every_dropFirst (p q : ascii → bool) (s : string) :
  every q s = true → every q (JS.dropFirst p s) = true.
Proof.
  destruct s as [|c s]; [done|]. simpl.
  intros [Hc Hs]%andb_true_iff. destruct (p c); [done|]. simpl. by rewrite Hc.
Qed.

Lemma every_strip (q : ascii → bool) (s : string) :
  every q s = true → every q (JS.strip_edge_dashes s) = true.
Proof.
  intros Hs. unfold JS.strip_edge_dashes.
  rewrite every_rev. apply every_dropFirst. rewrite every_rev.
  by apply every_dropFirst.
Qed.

(** Facts about single code units, by inspection of the 256 of them. *)
Lemma toLowerChar_not_upper (c : ascii) : is_upper (JS.toLowerChar c) = false.
Proof. destruct c as [[] [] [] [] [] [] [] []]; reflexivity. Qed.

Lemma kept_lower_is_slug_char (c : ascii) :
  (JS.is_word c || JS.is_space c || JS.is_dash c) && negb (is_upper c) = true →
  JS.is_space c || (JS.code c =? 95)%N = false →
  is_slug_char c = true.
Proof. destruct c as [[] [] [] [] [] [] [] []]; vm_compute; congruence. Qed.

Lemma every_toLowerCase (s : string) :
  every (λ c, negb (is_upper c)) (JS.toLowerCase s) = true.
Proof.
  induction s as [|c s IH]; [done|]. simpl.
  by rewrite toLowerChar_not_upper, IH.
Qed.

Lemma is_dash_eq (c : ascii) : JS.is_dash c = true → c = "-"%char.
Proof. destruct c as [[] [] [] [] [] [] [] []]; vm_compute; congruence. Qed.

Lemma slugify_every_slug_char (text : string) :
  every is_slug_char (slugify text) = true.
Proof.
  unfold slugify. apply every_strip.
  apply every_replace_runs with (q := is_slug_char); [done|auto|].
  apply every_replace_runs
    with (q := λ c, (JS.is_word c || JS.is_space c || JS.is_dash c)
                    && negb (is_upper c)); [done| |].
  { intros c. apply kept_lower_is_slug_char. }
  apply every_keep, every_trim, every_toLowerCase.
Qed.

(** Dashes at the ends and next to each other. *)
Lemma starts_rev_onto (s acc : string) :
  s ≠ "" → starts_with_dash (JS.rev_onto s acc) = ends_with_dash s.
Proof.
  revert acc. induction s as [|c s IH]; intros acc Hne; [done|].
  destruct s as [|d s]; [done|].
  change (starts_with_dash (JS.rev_onto (String d s) (String c acc))
          = ends_with_dash (String d s)).
  by apply IH.
Qed.

Lemma starts_rev (s : string) : starts_with_dash (JS.rev s) = ends_with_dash s.
Proof. destruct s as [|c s]; [done|]. by apply starts_rev_onto. Qed.

Lemma ends_rev (s : string) : ends_with_dash (JS.rev s) = starts_with_dash s.
Proof. by rewrite <- starts_rev, rev_involutive. Qed.

Lemma starts_app_single (s : string) (c : ascii) :
  starts_with_dash (s +:+ String c "")
  = match s with EmptyString => JS.is_dash c | _ => starts_with_dash s end.
Proof. by destruct s. Qed.

Lemma double_dash_app_single (s : string) (c : ascii) :
  has_double_dash (s +:+ String c "")
  = has_double_dash s || (ends_with_dash s && JS.is_dash c).
Proof.
  induction s as [|a s IH].
  { rewrite string_app_nil_l. simpl. by rewrite andb_false_r. }
  rewrite string_app_cons.
  change (has_double_dash (String a (s +:+ String c "")))
    with ((JS.is_dash a && starts_with_dash (s +:+ String c ""))
          || has_double_dash (s +:+ String c "")).
  rewrite IH, starts_app_single. destruct s as [|d s]; simpl.
  - by destruct (JS.is_dash a), (JS.is_dash c).
  - by rewrite orb_assoc.
Qed.

Lemma double_dash_rev (s : string) :
  has_double_dash (JS.rev s) = has_double_dash s.
Proof.
  induction s as [|c s IH]; [done|].
  rewrite rev_cons, double_dash_app_single, IH, ends_rev. simpl.
  by rewrite orb_comm, andb_comm.
Qed.

Lemma replace_dashes_shape (b : bool) (s : string) :
  has_double_dash (JS.replace_runs JS.is_dash separator b s) = false ∧
  (b = true → starts_with_dash (JS.replace_runs JS.is_dash separator b s) = false).
Proof.
  revert b. induction s as [|c s IH]; intros b; [done|]. simpl.
  destruct (JS.is_dash c) eqn:Hc.
  - destruct (IH true) as [Hdd Hst]. destruct b; [auto|].
    split; [|done]. change (separator +:+ ?x) with (String "-"%char x). simpl.
    by rewrite Hdd, Hst.
  - destruct (IH false) as [Hdd _]. simpl. by rewrite Hc, Hdd.
Qed.

Lemma double_dash_dropFirst (p : ascii → bool) (s : string) :
  has_double_dash s = false → has_double_dash (JS.dropFirst p s) = false.
Proof.
  destruct s as [|c s]; [done|]. simpl. intros [Hd Hs]%orb_false_iff.
  destruct (p c); [done|]. simpl. by rewrite Hd, Hs.
Qed.

Lemma starts_dropFirst (s : string) :
  has_double_dash s = false →
  starts_with_dash (JS.dropFirst JS.is_dash s) = false.
Proof.
  destruct s as [|c s]; [done|]. simpl. intros [Hd _]%orb_false_iff.
  destruct (JS.is_dash c) eqn:Hc; [done|]. simpl. by rewrite Hc.
Qed.

Lemma ends_dropFirst (p : ascii → bool) (s : string) :
  ends_with_dash s = false → ends_with_dash (JS.dropFirst p s) = false.
Proof.
  destruct s as [|c s]; [done|]. simpl. destruct (p c); [|done].
  by destruct s.
Qed.

Lemma strip_shape (s : string) :
  has_double_dash s = false →
  starts_with_dash (JS.strip_edge_dashes s) = false ∧
  ends_with_dash (JS.strip_edge_dashes s) = false ∧
  has_double_dash (JS.strip_edge_dashes s) = false.
Proof.
  intros Hdd. unfold JS.strip_edge_dashes.
  pose proof (starts_dropFirst s Hdd) as Hst.
  pose proof (double_dash_dropFirst JS.is_dash s Hdd) as Hdd1.
  set (x := JS.dropFirst JS.is_dash s) in *.
  rewrite starts_rev, ends_rev, double_dash_rev. split_and!.
  - apply ends_dropFirst. by rewrite ends_rev.
  - apply starts_dropFirst. by rewrite double_dash_rev.
  - apply double_dash_dropFirst. by rewrite double_dash_rev.
Qed.

Lemma slugify_shape (text : string) :
  starts_with_dash (slugify text) = false ∧
  ends_with_dash (slugify text) = false ∧
  has_double_dash (slugify text) = false.
Proof. unfold slugify. apply strip_shape, replace_dashes_shape. Qed.

(** Each step of [slugify] leaves a string of slug shape as it is. *)
Lemma slug_char_facts (c : ascii) :
  is_slug_char c = true →
  JS.toLowerChar c = c ∧ JS.is_space c = false ∧
  (JS.is_word c || JS.is_space c || JS.is_dash c) = true ∧
  JS.is_space c || (JS.code c =? 95)%N = false.
Proof. destruct c as [[] [] [] [] [] [] [] []]; vm_compute; auto; congruence. Qed.

Lemma toLowerCase_slug (s : string) :
  every is_slug_char s = true → JS.toLowerCase s = s.
Proof.
  induction s as [|c s IH]; [done|]. simpl. intros [Hc Hs]%andb_true_iff.
  destruct (slug_char_facts c Hc) as (-> & _). by rewrite IH.
Qed.

Lemma trimStart_slug (s : string) :
  every is_slug_char s = true → JS.trimStart s = s.
Proof.
  destruct s as [|c s]; [done|]. simpl. intros [Hc Hs]%andb_true_iff.
  by destruct (slug_char_facts c Hc) as (_ & -> & _).
Qed.

Lemma trim_slug (s : string) : every is_slug_char s = true → JS.trim s = s.
Proof.
  intros Hs. unfold JS.trim, JS.trimEnd. rewrite (trimStart_slug s Hs).
  rewrite trimStart_slug by by rewrite every_rev. apply rev_involutive.
Qed.

Lemma keep_all (k : ascii → bool) (s : string) :
  every k s = true → JS.keep k s = s.
Proof.
  induction s as [|c s IH]; [done|]. simpl. intros [Hc Hs]%andb_true_iff.
  by rewrite Hc, IH.
Qed.

Lemma replace_runs_none (p : ascii → bool) (sep : string) (b : bool) (s : string) :
  every (λ c, negb (p c)) s = true → JS.replace_runs p sep b s = s.
Proof.
  revert b. induction s as [|c s IH]; intros b; [done|]. simpl.
  intros [Hc Hs]%andb_true_iff. apply negb_true_iff in Hc. by rewrite Hc, IH.
Qed.

Lemma replace_dashes_single (b : bool) (s : string) :
  has_double_dash s = false → (b = true → starts_with_dash s = false) →
  JS.replace_runs JS.is_dash separator b s = s.
Proof.
  revert b. induction s as [|c s IH]; intros b; [done|]. simpl.
  intros [Hd Hs]%orb_false_iff Hb. destruct (JS.is_dash c) eqn:Hc.
  - destruct b; [by specialize (Hb eq_refl)|].
    simpl in Hd. rewrite (is_dash_eq c Hc), (IH true); done.
  - by rewrite (IH false).
Qed.

Lemma strip_none (s : string) :
  starts_with_dash s = false → ends_with_dash s = false →
  JS.strip_edge_dashes s = s.
Proof.
  intros Hst Hen. unfold JS.strip_edge_dashes.
  assert (JS.dropFirst JS.is_dash s = s) as ->.
  { destruct s as [|c s]; [done|]. simpl in *. by rewrite Hst. }
  assert (JS.dropFirst JS.is_dash (JS.rev s) = JS.rev s) as ->.
  { pose proof (starts_rev s) as Hr. rewrite Hen in Hr.
    destruct (JS.rev s) as [|c r]; [done|]. simpl in *. by rewrite Hr. }
  apply rev_involutive.
Qed.

Lemma slugify_slug (s : string) :
  every is_slug_char s = true →
  starts_with_dash s = false → ends_with_dash s = false →
  has_double_dash s = false →
  slugify s = s.
Proof.
  intros Hs Hst Hen Hdd. unfold slugify.
  rewrite (toLowerCase_slug s Hs), (trim_slug s Hs).
  rewrite (keep_all _ s).
  2: { eapply every_impl; [|exact Hs]. intros c Hc.
       by destruct (slug_char_facts c Hc) as (_ & _ & -> & _). }
  rewrite (replace_runs_none (λ c, JS.is_space c || (JS.code c =? 95)%N) _ _ s).
  2: { eapply every_impl; [|exact Hs]. intros c Hc.
       by destruct (slug_char_facts c Hc) as (_ & _ & _ & ->). }
  rewrite replace_dashes_single by done.
  by apply strip_none.
Qed.

End SlugShape.

(** ** Further properties of the path generator *)
Section PathGeneratorMore.
Import PathGenerator NewsActions Shape.

Lemma slugify_clean (text : string) :
  every is_slug_char (slugify text) = true ∧
  starts_with_dash (slugify text) = false ∧
  ends_with_dash (slugify text) = false ∧
  has_double_dash (slugify text) = false.
Proof.
  split; [apply slugify_every_slug_char|]. apply slugify_shape.
Qed.

(** X1.  Whatever the title, its slug consists of digits, lower-case letters
    a-z and dashes only. *)
Theorem slug_chars_url_safe (text : string) :
  every is_slug_char (slugify text) = true.
Proof.
  destruct (slugify_clean text) as (Hchars & _).
  exact Hchars.
Qed.

(** X2.  Whatever the title, its slug neither starts nor ends with a dash and
    has no two dashes in a row. *)
Theorem slug_dashes_single_and_inner (text : string) :
  starts_with_dash (slugify text) = false ∧
  ends_with_dash (slugify text) = false ∧
  has_double_dash (slugify text) = false.
Proof.
  destruct (slugify_clean text) as (_ & Hstart & Hend & Hdouble).
  by split_and!.
Qed.

(** X3.  [slugify] is idempotent: the slug of a slug is that slug. *)
Theorem slugify_idempotent (text : string) :
  slugify (slugify text) = slugify text.
Proof.
  destruct (slugify_clean text) as (Hchars & Hstart & Hend & Hdouble).
  by apply slugify_slug.
Qed.

Lemma kept_not_alnum_is_dash (c : ascii) :
  (JS.is_word c || JS.is_space c || JS.is_dash c) && negb (is_alnum c) = true →
  JS.is_space c || (JS.code c =? 95)%N = false →
  JS.is_dash c = true.
Proof. destruct c as [[] [] [] [] [] [] [] []]; vm_compute; congruence. Qed.

Lemma dashes_without_double (s : string) :
  every JS.is_dash s = true → has_double_dash s = false → s = "" ∨ s = "-".
Proof.
  destruct s as [|c [|d s]]; simpl; [by left| |].
  - rewrite andb_true_r. intros ->%is_dash_eq _. by right.
  - intros [Hc [Hd _]%andb_true_iff]%andb_true_iff. by rewrite Hc, Hd.
Qed.

Lemma slugify_no_alnum (text : string) :
  every (λ c, negb (is_alnum c)) (JS.toLowerCase text) = true →
  slugify text = "".
Proof.
  intros Htext. unfold slugify.
  set (s5 := JS.replace_runs JS.is_dash separator false _).
  assert (every JS.is_dash s5 = true) as Hdashes.
  { apply every_replace_runs with (q := JS.is_dash); [done| |].
    { intros c Hc Hn. congruence. }
    apply every_replace_runs
      with (q := λ c, (JS.is_word c || JS.is_space c || JS.is_dash c)
                      && negb (is_alnum c)); [done| |].
    { intros c. apply kept_not_alnum_is_dash. }
    by apply every_keep, every_trim. }
  destruct (dashes_without_double s5 Hdashes) as [-> | ->]; [|done|done].
  apply replace_dashes_shape.
Qed.

(** X4.  A title whose lower-cased form ([toLowerCase], the first step of
    [slugify]) holds no letter and no digit of [0-9A-Za-z] has the empty slug,
    and when the empty path is free it is the path such a title gets.  The
    titles are those of the model: code units below U+0100. *)
Theorem title_without_alnum_gets_empty_path (g : t) (newTitle : string)
    (fuel : nat) :
  every (λ c, negb (is_alnum c)) (JS.toLowerCase newTitle) = true →
  maxLength g = 100%Z →
  "" ∉ existingPaths g →
  slugify newTitle = "" ∧
  fst <$> generatePath (S fuel) g newTitle = Some "".
Proof.
  intros Htitle Hmax Hfree.
  pose proof (slugify_no_alnum newTitle Htitle) as Hslug.
  split; [done|].
  assert (initialPath g (slugify newTitle) = "") as Hinit.
  { unfold initialPath. by rewrite Hslug, Hmax. }
  rewrite generatePath_free; by rewrite Hinit.
Qed.

Lemma title_without_alnum_gets_empty_path_witness :
  slugify "?! ... _ -- (%)" = "" ∧
  fst <$> generatePath 1 (new_default ["news"]) "?! ... _ -- (%)" = Some "".
Proof.
  apply (title_without_alnum_gets_empty_path (new_default ["news"])
           "?! ... _ -- (%)" 0).
  - reflexivity.
  - reflexivity.
  - unfold new_default, new. simpl. rewrite elem_of_union, elem_of_singleton.
    intros [Heq|Hin]; [discriminate Heq|]. by apply not_elem_of_empty in Hin.
Defined.

(** X5.  Numbering without overflow: when the base path (at most 100 long)
    and its candidates numbered 1 to [k-1] are taken, the candidate numbered
    [k] is free and the candidates up to [k] fit in 100, [makeUnique] returns
    the base path followed by a dash and [k]. *)
Theorem makeUnique_first_free_number (g : t) (basePath : string) (k : N)
    (fuel : nat) :
  maxLength g = 100%Z →
  (JS.len basePath ≤ 100)%Z →
  basePath ∈ existingPaths g →
  (1 ≤ k < 2 ^ 53)%N →
  (∀ i : N, (1 ≤ i < k)%N → basePath +:+ "-" +:+ pretty i ∈ existingPaths g) →
  basePath +:+ "-" +:+ pretty k ∉ existingPaths g →
  (∀ i : N, (1 ≤ i ≤ k)%N → (JS.len (basePath +:+ "-" +:+ pretty i) ≤ 100)%Z) →
  N.to_nat k < fuel →
  makeUnique fuel g basePath = Some (basePath +:+ "-" +:+ pretty k).
Proof.
  intros Hmax Hlen Hbase Hk Htaken Hfree Hfit Hfuel.
  unfold makeUnique, initialPath. rewrite Hmax.
  assert ((100 <? JS.len basePath)%Z = false) as -> by by apply Z.ltb_ge.
  destruct fuel as [|fuel]; [lia|]. simpl.
  rewrite decide_True by done. rewrite Hmax.
  assert ((100 <? JS.len (basePath +:+ separator +:+ pretty 1%N))%Z = false) as ->.
  { apply Z.ltb_ge, (Hfit 1%N). lia. }
  change (counter_succ 1) with (1 + 1)%N.
  replace k with (1 + N.of_nat (N.to_nat k - 1))%N in Hfree |- * by lia.
  apply (makeUnique_loop_numbered g basePath (N.to_nat k - 1) 1%N fuel Hmax);
    try done; try lia.
  - intros i Hi. apply Htaken. lia.
  - intros i Hi. apply Hfit. lia.
Qed.

Lemma makeUnique_first_free_number_witness :
  makeUnique 4 (new_default ["news"; "news-1"; "news-2"; "other"]) "news"
  = Some "news-3".
Proof.
  apply (makeUnique_first_free_number
           (new_default ["news"; "news-1"; "news-2"; "other"]) "news" 3 4).
  - reflexivity.
  - by vm_compute.
  - unfold new_default, new. simpl. apply elem_of_union_l, elem_of_singleton.
    reflexivity.
  - by vm_compute.
  - intros i [Hlo Hhi]. unfold new_default, new. simpl.
    assert (i = 1 ∨ i = 2)%N as [-> | ->] by lia.
    + apply elem_of_union_r, elem_of_union_l, elem_of_singleton. reflexivity.
    + apply elem_of_union_r, elem_of_union_r, elem_of_union_l, elem_of_singleton.
      reflexivity.
  - unfold new_default, new. simpl.
    rewrite !elem_of_union, !elem_of_singleton.
    intros [Heq|[Heq|[Heq|[Heq|Hin]]]]; try discriminate Heq.
    by apply not_elem_of_empty in Hin.
  - intros i [Hlo Hhi]. assert (i = 1 ∨ i = 2 ∨ i = 3)%N as [-> | [-> | ->]] by lia;
      by vm_compute.
  - vm_compute. lia.
Defined.

(** X6.  A batch records what it hands out: afterwards the set holds exactly
    the old paths and the returned ones, one path was returned per title, the
    set has grown by the number of titles and the maximum length is as
    before. *)
Theorem generatePaths_records_paths (fuel : nat) (g g' : t)
    (titles slugs : list string) :
  generatePaths fuel g titles = Some (slugs, g') →
  existingPaths g' = list_to_set slugs ∪ existingPaths g ∧
  length slugs = length titles ∧
  size (existingPaths g') = size (existingPaths g) + length titles ∧
  maxLength g' = maxLength g.
Proof.
  revert g g' slugs. induction titles as [|title rest IH]; intros g g' slugs; simpl.
  { intros [= <- <-].
    split_and!; [simpl; by rewrite (left_id_L ∅ (∪))|done|simpl; lia|done]. }
  destruct (generatePath fuel g title) as [[p g1]|] eqn:Hone; [|done].
  destruct (generatePaths fuel g1 rest) as [[ps g2]|] eqn:Hrest; [|done].
  intros [= <- <-].
  apply generatePath_spec in Hone as (Hfresh & Hmax1 & Hset1 & _).
  apply IH in Hrest as (Hset2 & Hlen & Hsize & Hmax2).
  split_and!.
  - rewrite Hset2, Hset1. simpl.
    by rewrite (assoc_L (∪) (list_to_set ps)), (comm_L (∪) (list_to_set ps)).
  - simpl. by rewrite Hlen.
  - rewrite Hsize, Hset1, size_union, size_singleton; [simpl; lia|].
    intros q Hq%elem_of_singleton Hin. by subst q.
  - congruence.
Qed.

Lemma generatePaths_records_paths_witness :
  ∃ g' : t,
    generatePaths 5 (new_default ["breaking-news"]) ["Breaking News"; "Weather"]
    = Some (["breaking-news-1"; "weather"], g') ∧
    size (existingPaths g') = 3.
Proof.
  destruct (generatePaths 5 (new_default ["breaking-news"])
              ["Breaking News"; "Weather"]) as [[slugs g']|] eqn:Hrun;
    [|by vm_compute in Hrun].
  exists g'.
  destruct (generatePaths_records_paths _ _ _ _ _ Hrun) as (_ & _ & Hsize & _).
  split; [|exact Hsize].
  vm_compute in Hrun. injection Hrun as <- _. reflexivity.
Defined.

(** X7.  The path [createNews] computes is none of the stored paths, and the
    path [updateNews] computes is none of the paths of the other items; both
    are at most 100 long. *)
Theorem computed_paths_avoid_stored_paths (fuel : nat) (existing : list string)
    (current : option CurrentNews) (newTitle p : string) :
  (createNews_path fuel existing newTitle = Some p →
   (p ∉ existing) ∧ (JS.len p ≤ 100)%Z) ∧
  (updateNews_path fuel existing current newTitle = Some p →
   (∀ q, q ∈ existing → Some q ≠ path <$> current → p ≠ q) ∧
   (JS.len p ≤ 100)%Z).
Proof.
  unfold createNews_path, updateNews_path. split.
  - destruct (generatePath fuel _ newTitle) as [[p' g1]|] eqn:Hgen; [|done].
    intros [= ->]. apply generatePath_spec in Hgen as (Hfresh & _ & _ & Hlen).
    split; [|by apply Hlen].
    intros Hin. apply Hfresh. unfold new_default, new. simpl.
    by apply elem_of_list_to_set.
  - destruct (generatePath fuel _ newTitle) as [[p' g1]|] eqn:Hgen; [|done].
    intros [= ->]. apply generatePath_spec in Hgen as (Hfresh & _ & _ & Hlen).
    split; [|by apply Hlen].
    intros q Hq Hother ->. apply Hfresh. unfold new_default, new. simpl.
    apply elem_of_list_to_set. unfold filteredPaths.
    by apply list_elem_of_filter.
Qed.

Lemma computed_paths_avoid_stored_paths_witness :
  createNews_path 3 ["news"; "news-1"] "News" = Some "news-2" ∧
  ("news-2" ∉ ["news"; "news-1"]) ∧
  updateNews_path 3 ["news"; "news-1"]
    (Some {| path := "news-1"; title := "Old" |}) "News" = Some "news-1".
Proof.
  assert (createNews_path 3 ["news"; "news-1"] "News" = Some "news-2") as Hc
    by (vm_compute; reflexivity).
  split; [exact Hc|]. split.
  - exact (proj1 (proj1 (computed_paths_avoid_stored_paths 3 ["news"; "news-1"]
                           None "News" "news-2") Hc)).
  - vm_compute. reflexivity.
Defined.

Lemma toLowerChar_idempotent (c : ascii) :
  JS.toLowerChar (JS.toLowerChar c) = JS.toLowerChar c.
Proof. destruct c as [[] [] [] [] [] [] [] []]; reflexivity. Qed.

Lemma toLowerCase_idempotent (s : string) :
  JS.toLowerCase (JS.toLowerCase s) = JS.toLowerCase s.
Proof.
  induction s as [|c s IH]; [done|]. simpl.
  by rewrite toLowerChar_idempotent, IH.
Qed.

(** X23.  The slug does not depend on the case of the letters: a title and
    its lower-case form have the same slug, so two titles with the same
    lower-case form do too. *)
Theorem slugify_ignores_case (text text' : string) :
  slugify (JS.toLowerCase text) = slugify text ∧
  (JS.toLowerCase text = JS.toLowerCase text' → slugify text = slugify text').
Proof.
  split.
  - unfold slugify. by rewrite toLowerCase_idempotent.
  - intros Hsame. unfold slugify. by rewrite Hsame.
Qed.

Lemma slugify_ignores_case_witness :
  slugify "Breaking NEWS" = slugify "bREAKING news".
Proof.
  apply (proj2 (slugify_ignores_case "Breaking NEWS" "bREAKING news")).
  reflexivity.
Defined.

End PathGeneratorMore.

(** ** Further properties of the comment actions *)
Section CommentMore.
Import Store CommentActions CommentCounts.

Variable score_ok : Z → bool.

Lemma addComment_intro (user : User) (data : CommentInput) (newId : string)
    (s : Store.t) (kn : string) (rn : NewsInteraction) (ku : string)
    (ru : UserInteraction) :
  validate data = Ok () →
  findFirst (λ r, bool_decide (newsId r = input_newsId data))
    (newsInteractions s) = Some (kn, rn) →
  findFirst (λ r, bool_decide (userId r = id user))
    (userInteractions s) = Some (ku, ru) →
  comments s !! newId = None →
  score_ok (popularityScore rn + 2) = true →
  score_ok (contributionScore ru + 2) = true →
  addComment score_ok (Some user) data newId s
  = (store_after_add s kn rn ku ru newId (input_text data), Ok ()).
Proof.
  intros Hv Hn Hu Hnew Hp Hc. unfold addComment, transaction.
  rewrite Hv, Hn, Hu.
  pose proof (findFirst_Some _ _ _ _ Hn) as [Hkn _].
  pose proof (findFirst_Some _ _ _ _ Hu) as [Hku _].
  unfold create_comment. rewrite Hnew. simpl.
  unfold update_popularity. simpl. rewrite Hkn, Hp. simpl.
  unfold update_contribution. simpl. by rewrite Hku, Hc.
Qed.

Lemma deleteComment_intro (user : User) (commentId : string) (s : Store.t)
    (c : Comment) (ni : NewsInteraction) (ui : UserInteraction) :
  comments s !! commentId = Some c →
  newsInteractions s !! newsInteractionId c = Some ni →
  userInteractions s !! userInteractionId c = Some ui →
  userId ui = id user →
  score_ok (popularityScore ni + -2) = true →
  score_ok (contributionScore ui + -2) = true →
  deleteComment score_ok (Some user) commentId s
  = (store_after_delete s commentId c ni ui, Ok ()).
Proof.
  intros Hc Hni Hui Hauthor Hp Hs. unfold deleteComment, findComment, transaction.
  rewrite Hc, Hni, Hui, bool_decide_eq_true_2 by done.
  unfold delete_comment. rewrite Hc. simpl.
  unfold update_popularity. simpl. rewrite Hni, Hp. simpl.
  unfold update_contribution. simpl. by rewrite Hui, Hs.
Qed.

(** X8.  [addComment] returns exactly when the input is valid, a user is
    signed in, the news item and the user each have an interaction row, the
    key drawn for the comment is unused and both raised scores are within the
    column range; the store then differs from the old one by the new comment
    and by 2 more on the two rows found, nothing else. *)
Theorem addComment_returns_iff (session : option User) (data : CommentInput)
    (newId : string) (s s' : Store.t) :
  addComment score_ok session data newId s = (s', Ok ()) ↔
  validate data = Ok () ∧
  ∃ user kn rn ku ru,
    session = Some user ∧
    findFirst (λ r, bool_decide (newsId r = input_newsId data))
      (newsInteractions s) = Some (kn, rn) ∧
    findFirst (λ r, bool_decide (userId r = id user))
      (userInteractions s) = Some (ku, ru) ∧
    comments s !! newId = None ∧
    score_ok (popularityScore rn + 2) = true ∧
    score_ok (contributionScore ru + 2) = true ∧
    s' = store_after_add s kn rn ku ru newId (input_text data).
Proof.
  split; [apply addComment_inv|].
  intros (Hv & user & kn & rn & ku & ru & -> & Hn & Hu & Hnew & Hp & Hc & ->).
  by apply addComment_intro.
Qed.

(** X9.  [deleteComment] returns exactly when a user is signed in, the
    comment exists with both its interaction rows, the user is its author and
    both lowered scores are within the column range; the store then differs
    from the old one by the missing comment and by 2 less on the comment's two
    rows, nothing else. *)
Theorem deleteComment_returns_iff (session : option User) (commentId : string)
    (s s' : Store.t) :
  deleteComment score_ok session commentId s = (s', Ok ()) ↔
  ∃ user c ni ui,
    session = Some user ∧
    comments s !! commentId = Some c ∧
    newsInteractions s !! newsInteractionId c = Some ni ∧
    userInteractions s !! userInteractionId c = Some ui ∧
    userId ui = id user ∧
    score_ok (popularityScore ni + -2) = true ∧
    score_ok (contributionScore ui + -2) = true ∧
    s' = store_after_delete s commentId c ni ui.
Proof.
  split; [apply deleteComment_inv|].
  intros (user & c & ni & ui & -> & Hc & Hni & Hui & Hauthor & Hp & Hs & ->).
  by apply deleteComment_intro.
Qed.

(** X10.  Round trip: when [addComment] returned and the two scores it found
    were within the column range, [deleteComment] of the new comment by the
    same user returns and gives back exactly the store from before the
    [addComment]. *)
Theorem add_then_delete_restores_store (user : User) (data : CommentInput)
    (newId : string) (s s1 : Store.t) :
  addComment score_ok (Some user) data newId s = (s1, Ok ()) →
  (∀ p, popularity_of (input_newsId data) s = Some p → score_ok p = true) →
  (∀ c, contribution_of user s = Some c → score_ok c = true) →
  deleteComment score_ok (Some user) newId s1 = (s, Ok ()).
Proof.
  intros Hadd Hp0 Hc0.
  apply addComment_inv in Hadd
    as (_ & user' & kn & rn & ku & ru & [= <-] & Hn & Hu & Hnew & _ & _ & ->).
  pose proof (findFirst_Some _ _ _ _ Hn) as [Hkn _].
  pose proof (findFirst_Some _ _ _ _ Hu) as [Hku Hmine%bool_decide_eq_true_1].
  assert (score_ok (popularityScore rn) = true) as Hp.
  { apply Hp0. unfold popularity_of. by rewrite Hn. }
  assert (score_ok (contributionScore ru) = true) as Hc.
  { apply Hc0. unfold contribution_of. by rewrite Hu. }
  rewrite (deleteComment_intro user newId _
             {| text := input_text data; newsInteractionId := kn;
                userInteractionId := ku |}
             {| newsId := newsId rn; popularityScore := popularityScore rn + 2 |}
             {| userId := userId ru;
                contributionScore := contributionScore ru + 2 |}); simpl.
  - f_equal. unfold store_after_delete, store_after_add. simpl.
    destruct s as [nis uis cs]. simpl in *. f_equal.
    + rewrite insert_insert_eq. apply insert_id. rewrite Hkn.
      destruct rn as [n p]. simpl. do 2 f_equal. lia.
    + rewrite insert_insert_eq. apply insert_id. rewrite Hku.
      destruct ru as [u c]. simpl. do 2 f_equal. lia.
    + by apply delete_insert_id.
  - apply lookup_insert_eq.
  - apply lookup_insert_eq.
  - apply lookup_insert_eq.
  - done.
  - by replace (popularityScore rn + 2 + -2)%Z with (popularityScore rn) by lia.
  - by replace (contributionScore ru + 2 + -2)%Z with (contributionScore ru) by lia.
Qed.


Lemma bases_after_add (s : Store.t) (kn : string) (rn : NewsInteraction)
    (ku : string) (ru : UserInteraction) (newId txt key : string) :
  newsInteractions s !! kn = Some rn →
  userInteractions s !! ku = Some ru →
  comments s !! newId = None →
  popularity_base key (store_after_add s kn rn ku ru newId txt)
  = popularity_base key s ∧
  contribution_base key (store_after_add s kn rn ku ru newId txt)
  = contribution_base key s.
Proof.
  intros Hkn Hku Hnew.
  unfold popularity_base, contribution_base, comments_on, comments_by,
    store_after_add. simpl.
  rewrite !size_filter_insert by done. simpl. split.
  - destruct (decide (kn = key)) as [Heq|Hne]; simpl.
    + subst key. rewrite lookup_insert_eq, Hkn. simpl. f_equal. lia.
    + rewrite lookup_insert_ne by done. by rewrite Nat.add_0_r.
  - destruct (decide (ku = key)) as [Heq|Hne]; simpl.
    + subst key. rewrite lookup_insert_eq, Hku. simpl. f_equal. lia.
    + rewrite lookup_insert_ne by done. by rewrite Nat.add_0_r.
Qed.

Lemma bases_after_delete (s : Store.t) (commentId : string) (c : Comment)
    (ni : NewsInteraction) (ui : UserInteraction) (key : string) :
  comments s !! commentId = Some c →
  newsInteractions s !! newsInteractionId c = Some ni →
  userInteractions s !! userInteractionId c = Some ui →
  popularity_base key (store_after_delete s commentId c ni ui)
  = popularity_base key s ∧
  contribution_base key (store_after_delete s commentId c ni ui)
  = contribution_base key s.
Proof.
  intros Hc Hni Hui.
  unfold popularity_base, contribution_base, comments_on, comments_by,
    store_after_delete. simpl.
  rewrite (size_filter_delete (λ kc, newsInteractionId kc.2 = key) _ _ _ Hc).
  rewrite (size_filter_delete (λ kc, userInteractionId kc.2 = key) _ _ _ Hc).
  simpl. split.
  - destruct (decide (newsInteractionId c = key)) as [Hk|Hne]; simpl.
    + rewrite <- Hk, lookup_insert_eq, Hni. simpl. f_equal. lia.
    + rewrite lookup_insert_ne by done. by rewrite Nat.add_0_r.
  - destruct (decide (userInteractionId c = key)) as [Hk|Hne]; simpl.
    + rewrite <- Hk, lookup_insert_eq, Hui. simpl. f_equal. lia.
    + rewrite lookup_insert_ne by done. by rewrite Nat.add_0_r.
Qed.

(** X12.  Scores and comment counts move together: for every interaction row,
    the score less 2 per comment on the row is the same before and after any
    [addComment] or [deleteComment] call, whoever makes it, about whatever
    item, and whether it returns or throws. *)
Theorem comment_actions_keep_score_bases (s : Store.t) (key : string) :
  (∀ session data newId,
     popularity_base key (addComment score_ok session data newId s).1
     = popularity_base key s ∧
     contribution_base key (addComment score_ok session data newId s).1
     = contribution_base key s) ∧
  (∀ session commentId,
     popularity_base key (deleteComment score_ok session commentId s).1
     = popularity_base key s ∧
     contribution_base key (deleteComment score_ok session commentId s).1
     = contribution_base key s).
Proof.
  split.
  - intros session data newId.
    destruct (addComment score_ok session data newId s) as [s' [[]|m]] eqn:Hadd;
      simpl.
    + apply addComment_inv in Hadd
        as (_ & user & kn & rn & ku & ru & _ & Hn & Hu & Hnew & _ & _ & ->).
      apply findFirst_Some in Hn as [Hkn _]. apply findFirst_Some in Hu as [Hku _].
      by apply bases_after_add.
    + by rewrite (addComment_Throw _ _ _ _ _ _ _ Hadd).
  - intros session commentId.
    destruct (deleteComment score_ok session commentId s) as [s' [[]|m]] eqn:Hdel;
      simpl.
    + apply deleteComment_inv in Hdel
        as (user & c & ni & ui & _ & Hc & Hni & Hui & _ & _ & _ & ->).
      by apply bases_after_delete.
    + by rewrite (deleteComment_Throw _ _ _ _ _ _ Hdel).
Qed.

End CommentMore.

Section CommentMoreWitnesses.
Import Store CommentActions CommentCounts.

Lemma add_then_delete_restores_store_witness :
  ∃ s1 : Store.t,
    addComment int4 (Some {| id := "u1" |})
      {| input_text := "hello"; input_newsId := "n1" |} "c1" sample_store
    = (s1, Ok ()) ∧
    deleteComment int4 (Some {| id := "u1" |}) "c1" s1 = (sample_store, Ok ()).
Proof.
  destruct (addComment int4 (Some {| id := "u1" |})
              {| input_text := "hello"; input_newsId := "n1" |} "c1" sample_store)
    as [s1 [[]|m]] eqn:Hadd; [|by vm_compute in Hadd].
  exists s1. split; [reflexivity|].
  apply (add_then_delete_restores_store int4 {| id := "u1" |}
           {| input_text := "hello"; input_newsId := "n1" |} "c1"
           sample_store s1 Hadd).
  - intros p Hp. vm_compute in Hp. injection Hp as <-. reflexivity.
  - intros c Hc. vm_compute in Hc. injection Hc as <-. reflexivity.
Defined.


End CommentMoreWitnesses.

(** ** Further properties of the dashboard *)
Section DashboardMore.
Import Dashboard Shape.

Lemma find_first_key {K V : Type} `{!EqDecision K} (f : K → string)
    (l : list (K * V)) (k : K) (v : V) :
  Inj (=) (=) f →
  NoDup l.*1 →
  (k, v) ∈ l →
  List.find (λ c, bool_decide (f k = f c.1)) l = Some (k, v).
Proof.
  intros Hinj. induction l as [|[k' v'] l IH]; intros Hnd Hin.
  { by apply elem_of_nil in Hin. }
  simpl in *. apply NoDup_cons in Hnd as [Hnotin Hnd].
  apply elem_of_cons in Hin as [[= <- <-]|Hin].
  - by rewrite bool_decide_eq_true_2.
  - rewrite bool_decide_eq_false_2; [by apply IH|].
    intros Heq%Hinj. subst k'. apply Hnotin.
    apply list_elem_of_fmap. by exists (k, v).
Qed.

Lemma cases_keys_NoDup : NoDup cases.*1.
Proof. apply (bool_decide_unpack _). by vm_compute. Qed.

(** X13.  When the action names of [LOG_ACTIONS] are pairwise distinct,
    [formatLogAction] maps the name of each key to the phrase its [case]
    gives, never to the fallback. *)
Theorem formatLogAction_known_kind (LOG_ACTIONS : LogKey → string)
    (k : LogKey) (phrase : string) :
  Inj (=) (=) LOG_ACTIONS →
  (k, phrase) ∈ cases →
  formatLogAction LOG_ACTIONS (LOG_ACTIONS k) = phrase.
Proof.
  intros Hinj Hin. unfold formatLogAction.
  by rewrite (find_first_key LOG_ACTIONS cases k phrase Hinj cases_keys_NoDup Hin).
Qed.

Lemma sample_LOG_ACTIONS_inj : Inj (=) (=) sample_LOG_ACTIONS.
Proof. intros x y Heq. destruct x, y; try reflexivity; discriminate Heq. Defined.

Lemma formatLogAction_known_kind_witness :
  formatLogAction sample_LOG_ACTIONS "COMMENT_DELETED" = "Deleted a comment".
Proof.
  apply (formatLogAction_known_kind sample_LOG_ACTIONS COMMENT_DELETED
           "Deleted a comment" sample_LOG_ACTIONS_inj).
  apply (bool_decide_unpack _). vm_compute. exact I.
Defined.

Lemma fallback_char (c : ascii) :
  let c' := JS.toLowerChar (if (JS.code c =? 46)%N then " "%char else c) in
  negb (is_dot c') && negb (is_upper c') = true.
Proof. destruct c as [[] [] [] [] [] [] [] []]; reflexivity. Qed.

Lemma fallback_shape (s : string) :
  every (λ c, negb (is_dot c) && negb (is_upper c))
    (JS.toLowerCase (replace_dots s)) = true.
Proof.
  induction s as [|c s IHall]; [done|]. simpl.
  by rewrite (fallback_char c), IHall.
Qed.

(** X14.  An action that is none of the names of [LOG_ACTIONS] is shown in
    lower case with every dot turned into a space: the text has no dot and no
    capital letter A-Z. *)
Theorem formatLogAction_unknown_kind (LOG_ACTIONS : LogKey → string)
    (action : string) :
  (∀ k, action ≠ LOG_ACTIONS k) →
  formatLogAction LOG_ACTIONS action = JS.toLowerCase (replace_dots action) ∧
  every (λ c, negb (is_dot c) && negb (is_upper c))
    (formatLogAction LOG_ACTIONS action) = true.
Proof.
  intros Hunknown.
  assert (formatLogAction LOG_ACTIONS action
          = JS.toLowerCase (replace_dots action)) as Hfallback.
  { unfold formatLogAction.
    destruct (List.find _ cases) as [[k phrase]|] eqn:Hfind; [|done].
    apply List.find_some in Hfind as [_ Heq%bool_decide_eq_true_1].
    by destruct (Hunknown k). }
  rewrite Hfallback. split; [done|]. apply fallback_shape.
Qed.

Lemma formatLogAction_unknown_kind_witness :
  formatLogAction sample_LOG_ACTIONS "Weird.KIND.x" = "weird kind x".
Proof.
  destruct (formatLogAction_unknown_kind sample_LOG_ACTIONS "Weird.KIND.x")
    as [Hfallback _].
  - intros k Heq. destruct k; discriminate Heq.
  - rewrite Hfallback. reflexivity.
Defined.

End DashboardMore.

(** ** Listing comments *)
Section CommentListings.
Import Store CommentActions CommentCounts CommentReads.

Variable createdAt : string → Z.

#[local] Instance newer_or_equal_total : Total (newer_or_equal createdAt).
Proof. intros a b. unfold newer_or_equal. lia. Qed.

#[local] Instance newer_or_equal_trans : Transitive (newer_or_equal createdAt).
Proof. intros a b c. unfold newer_or_equal. lia. Qed.

Lemma elem_of_newest_first (rows : list (string * Comment)) (kc : string * Comment) :
  kc ∈ newest_first createdAt rows ↔ kc ∈ rows.
Proof. unfold newest_first. by rewrite merge_sort_Permutation. Qed.

Lemma forallb_rows (p : string * Comment → bool) (rows : list (string * Comment)) :
  (∀ kc, kc ∈ rows → p kc = true) → forallb p rows = true.
Proof.
  intros Hall. apply forallb_forall. intros kc Hin. apply Hall.
  by apply list_elem_of_In.
Qed.

Lemma news_rows_complete (s : Store.t) (key : string) :
  references_ok s →
  forallb (λ kc : string * Comment,
      bool_decide (is_Some (userInteractions s !! userInteractionId kc.2)))
    (filter (λ kc : string * Comment, newsInteractionId kc.2 = key)
       (map_to_list (comments s))) = true.
Proof.
  intros Hok. apply forallb_rows. intros [k c] [_ Hin]%list_elem_of_filter.
  apply elem_of_map_to_list in Hin. apply bool_decide_eq_true_2.
  by destruct (Hok k c Hin).
Qed.

Lemma user_rows_complete (s : Store.t) (key : string) :
  references_ok s →
  forallb (λ kc : string * Comment,
      bool_decide (is_Some (newsInteractions s !! newsInteractionId kc.2)))
    (filter (λ kc : string * Comment, userInteractionId kc.2 = key)
       (map_to_list (comments s))) = true.
Proof.
  intros Hok. apply forallb_rows. intros [k c] [_ Hin]%list_elem_of_filter.
  apply elem_of_map_to_list in Hin. apply bool_decide_eq_true_2.
  by destruct (Hok k c Hin).
Qed.

Lemma getNewsComments_elem (s : Store.t) (news key : string)
    (row : NewsInteraction) (k : string) (c : Comment) :
  references_ok s →
  findFirst (λ r, bool_decide (newsId r = news)) (newsInteractions s)
  = Some (key, row) →
  (k, c) ∈ getNewsComments createdAt news s ↔
  comments s !! k = Some c ∧ newsInteractionId c = key.
Proof.
  intros Hok Hfind. unfold getNewsComments. rewrite Hfind.
  rewrite (news_rows_complete s key Hok), elem_of_newest_first.
  rewrite list_elem_of_filter, elem_of_map_to_list. simpl. tauto.
Qed.

Lemma getUserComments_elem (s : Store.t) (user : User) (key : string)
    (row : UserInteraction) :
  references_ok s →
  findFirst (λ r, bool_decide (userId r = id user)) (userInteractions s)
  = Some (key, row) →
  ∃ rows, getUserComments createdAt (Some user) s = Ok rows ∧
    ∀ k c, (k, c) ∈ rows ↔
      comments s !! k = Some c ∧ userInteractionId c = key.
Proof.
  intros Hok Hfind. unfold getUserComments. rewrite Hfind.
  rewrite (user_rows_complete s key Hok). eexists. split; [done|].
  intros k c. rewrite elem_of_newest_first.
  rewrite list_elem_of_filter, elem_of_map_to_list. simpl. tauto.
Qed.

Lemma length_filter_map_to_list (P : string * Comment → Prop)
    `{!∀ x, Decision (P x)} (m : gmap string Comment) :
  length (filter P (map_to_list m)) = size (filter P m).
Proof.
  rewrite <- length_map_to_list. apply Permutation_length, NoDup_Permutation.
  - apply NoDup_filter, NoDup_map_to_list.
  - apply NoDup_map_to_list.
  - intros [k c]. rewrite list_elem_of_filter, !elem_of_map_to_list.
    rewrite map_lookup_filter_Some. tauto.
Qed.

Lemma getNewsComments_stored (s : Store.t) (news k : string) (c : Comment) :
  (k, c) ∈ getNewsComments createdAt news s → comments s !! k = Some c.
Proof.
  unfold getNewsComments.
  destruct (findFirst _ _) as [[key row]|]; [|by intros ?%elem_of_nil].
  destruct (forallb _ _); [|by intros ?%elem_of_nil].
  rewrite elem_of_newest_first, list_elem_of_filter, elem_of_map_to_list. tauto.
Qed.

Lemma getUserComments_stored (s : Store.t) (session : option User)
    (rows : list (string * Comment)) (k : string) (c : Comment) :
  getUserComments createdAt session s = Ok rows →
  (k, c) ∈ rows → comments s !! k = Some c.
Proof.
  unfold getUserComments. destruct session as [user|]; [|done].
  destruct (findFirst _ _) as [[key row]|];
    [|by intros [= <-] ?%elem_of_nil].
  destruct (forallb _ _); [|done]. intros [= <-].
  rewrite elem_of_newest_first, list_elem_of_filter, elem_of_map_to_list. tauto.
Qed.

(** X15.  In a store where every comment has its rows, [getNewsComments] of a
    news item with an interaction row lists exactly the comments that hang on
    that row, each once, from the newest to the oldest. *)
Theorem getNewsComments_lists_row_newest_first (s : Store.t) (news key : string)
    (row : NewsInteraction) :
  references_ok s →
  findFirst (λ r, bool_decide (newsId r = news)) (newsInteractions s)
  = Some (key, row) →
  (∀ k c, (k, c) ∈ getNewsComments createdAt news s ↔
          comments s !! k = Some c ∧ newsInteractionId c = key) ∧
  length (getNewsComments createdAt news s) = comments_on key s ∧
  StronglySorted (newer_or_equal createdAt) (getNewsComments createdAt news s).
Proof.
  intros Hok Hfind. split_and!.
  - intros k c. by eapply getNewsComments_elem.
  - unfold getNewsComments, comments_on, newest_first. rewrite Hfind.
    rewrite (news_rows_complete s key Hok).
    rewrite merge_sort_Permutation. apply length_filter_map_to_list.
  - unfold getNewsComments, newest_first. rewrite Hfind.
    rewrite (news_rows_complete s key Hok).
    apply StronglySorted_merge_sort; apply _.
Qed.

End CommentListings.

Section CommentListingsAfterActions.
Import Store CommentActions CommentCounts CommentReads.

Variable score_ok : Z → bool.
Variable createdAt : string → Z.

(** The comment actions keep every comment's two rows in place. *)
Lemma references_ok_after_add (s : Store.t) (kn : string) (rn : NewsInteraction)
    (ku : string) (ru : UserInteraction) (newId txt : string) :
  references_ok s →
  references_ok (store_after_add s kn rn ku ru newId txt).
Proof.
  intros Hok k c. unfold store_after_add. simpl.
  intros Hk. apply lookup_insert_Some in Hk as [[<- <-]|[Hne Hk]]; simpl.
  - by rewrite !lookup_insert_eq.
  - destruct (Hok k c Hk) as [Hn Hu]. split.
    + destruct (decide (kn = newsInteractionId c)) as [->|?];
        [by rewrite lookup_insert_eq|by rewrite lookup_insert_ne].
    + destruct (decide (ku = userInteractionId c)) as [->|?];
        [by rewrite lookup_insert_eq|by rewrite lookup_insert_ne].
Qed.

Lemma references_ok_after_delete (s : Store.t) (commentId : string) (c0 : Comment)
    (ni : NewsInteraction) (ui : UserInteraction) :
  references_ok s →
  references_ok (store_after_delete s commentId c0 ni ui).
Proof.
  intros Hok k c. unfold store_after_delete. simpl.
  intros [Hne Hk]%lookup_delete_Some.
  destruct (Hok k c Hk) as [Hn Hu]. split.
  - destruct (decide (newsInteractionId c0 = newsInteractionId c)) as [->|?];
      [by rewrite lookup_insert_eq|by rewrite lookup_insert_ne].
  - destruct (decide (userInteractionId c0 = userInteractionId c)) as [->|?];
      [by rewrite lookup_insert_eq|by rewrite lookup_insert_ne].
Qed.

(** X16.  The comment actions keep the references whole: if every comment has
    its two interaction rows before an [addComment] or [deleteComment] call,
    the same holds after it. *)
Theorem comment_actions_keep_references (s : Store.t) :
  references_ok s →
  (∀ session data newId,
     references_ok (addComment score_ok session data newId s).1) ∧
  (∀ session commentId,
     references_ok (deleteComment score_ok session commentId s).1).
Proof.
  intros Hok. split.
  - intros session data newId.
    destruct (addComment score_ok session data newId s) as [s' [[]|m]] eqn:Hadd;
      simpl.
    + apply addComment_inv in Hadd
        as (_ & user & kn & rn & ku & ru & _ & _ & _ & _ & _ & _ & ->).
      by apply references_ok_after_add.
    + by rewrite (addComment_Throw _ _ _ _ _ _ _ Hadd).
  - intros session commentId.
    destruct (deleteComment score_ok session commentId s) as [s' [[]|m]] eqn:Hdel;
      simpl.
    + apply deleteComment_inv in Hdel
        as (user & c & ni & ui & _ & _ & _ & _ & _ & _ & _ & ->).
      by apply references_ok_after_delete.
    + by rewrite (deleteComment_Throw _ _ _ _ _ _ Hdel).
Qed.

(** X17.  A comment that was added is listed: in a store where every comment
    has its rows, the news item has one interaction row and the user one
    user-interaction row, after an [addComment] that returned the new comment
    with its text is among [getNewsComments] of the item and among
    [getUserComments] of the user. *)
Theorem added_comment_is_listed (user : User) (data : CommentInput)
    (newId : string) (s s1 : Store.t) :
  references_ok s →
  at_most_one (λ r, bool_decide (newsId r = input_newsId data))
    (newsInteractions s) = true →
  at_most_one (λ r, bool_decide (userId r = id user)) (userInteractions s) = true →
  addComment score_ok (Some user) data newId s = (s1, Ok ()) →
  ∃ c, text c = input_text data ∧
    (newId, c) ∈ getNewsComments createdAt (input_newsId data) s1 ∧
    ∃ rows, getUserComments createdAt (Some user) s1 = Ok rows ∧
      (newId, c) ∈ rows.
Proof.
  intros Hok Hone_n Hone_u Hadd.
  pose proof Hadd as Hinv. apply addComment_inv in Hinv
    as (_ & user' & kn & rn & ku & ru & [= <-] & Hn & Hu & Hnew & _ & _ & Hs1).
  assert (popularity_of (input_newsId data) s = Some (popularityScore rn)) as Hp
    by (unfold popularity_of; by rewrite Hn).
  assert (contribution_of user s = Some (contributionScore ru)) as Hc
    by (unfold contribution_of; by rewrite Hu).
  destruct (sole_news_intro _ _ _ Hone_n Hp) as [kn' Hsn].
  destruct (sole_user_intro _ _ _ Hone_u Hc) as [ku' Hsu].
  assert (kn' = kn) as ->.
  { rewrite (sole_news_find _ _ _ _ Hsn) in Hn. by injection Hn. }
  assert (ku' = ku) as ->.
  { rewrite (sole_user_find _ _ _ _ Hsu) in Hu. by injection Hu. }
  destruct data as [txt news]. simpl in *.
  destruct (addComment_Ok score_ok _ _ _ _ _ _ _ _ _ _ Hsn Hsu Hadd) as [Hsn1 Hsu1].
  assert (references_ok s1) as Hok1
    by (rewrite Hs1; by apply references_ok_after_add).
  exists {| text := txt; newsInteractionId := kn; userInteractionId := ku |}.
  assert (comments s1 !! newId
          = Some {| text := txt; newsInteractionId := kn;
                    userInteractionId := ku |}) as Hstored
    by (rewrite Hs1; apply lookup_insert_eq).
  split; [done|]. split.
  - by apply (getNewsComments_elem createdAt s1 news kn _ newId _ Hok1
                (sole_news_find _ _ _ _ Hsn1)).
  - destruct (getUserComments_elem createdAt s1 user ku _ Hok1 (sole_user_find _ _ _ _ Hsu1))
      as (rows & Hrows & Helem).
    exists rows. split; [done|]. by apply Helem.
Qed.

(** X18.  A comment that was deleted is listed nowhere: after a
    [deleteComment] that returned, no list of [getNewsComments] or
    [getUserComments] has an entry under the comment's key. *)
Theorem deleted_comment_is_not_listed (session : option User)
    (commentId : string) (s s1 : Store.t) (c : Comment) :
  deleteComment score_ok session commentId s = (s1, Ok ()) →
  (∀ news, (commentId, c) ∉ getNewsComments createdAt news s1) ∧
  (∀ reader rows, getUserComments createdAt reader s1 = Ok rows →
                  (commentId, c) ∉ rows).
Proof.
  intros (user & c0 & ni & ui & _ & _ & _ & _ & _ & _ & _ & ->)%deleteComment_inv.
  split.
  - intros news Hin%getNewsComments_stored.
    unfold store_after_delete in Hin. simpl in Hin.
    by rewrite lookup_delete_eq in Hin.
  - intros reader rows Hrows Hin.
    apply (getUserComments_stored _ _ _ _ _ _ Hrows) in Hin.
    unfold store_after_delete in Hin. simpl in Hin.
    by rewrite lookup_delete_eq in Hin.
Qed.

End CommentListingsAfterActions.

Section CommentListingsWitnesses.
Import Store CommentActions CommentCounts CommentReads.

Lemma sample_store_references_ok : references_ok sample_store.
Proof.
  intros k c Hk. unfold sample_store in Hk. simpl in Hk.
  apply lookup_singleton_Some in Hk as [<- <-].
  split; eexists; vm_compute; reflexivity.
Defined.

Lemma getNewsComments_lists_row_newest_first_witness :
  getNewsComments sample_createdAt "n1" sample_store
  = [("c0", {| text := "first"; newsInteractionId := "ni1";
               userInteractionId := "ui2" |})] ∧
  length (getNewsComments sample_createdAt "n1" sample_store)
  = comments_on "ni1" sample_store.
Proof.
  split; [by vm_compute|].
  apply (getNewsComments_lists_row_newest_first sample_createdAt sample_store
           "n1" "ni1" {| newsId := "n1"; popularityScore := 10 |}
           sample_store_references_ok).
  by vm_compute.
Defined.

Lemma comment_actions_keep_references_witness :
  references_ok
    (addComment int4 (Some {| id := "u1" |})
       {| input_text := "hello"; input_newsId := "n1" |} "c1" sample_store).1.
Proof.
  apply (comment_actions_keep_references int4 sample_store
           sample_store_references_ok).
Defined.

Lemma added_comment_is_listed_witness :
  ∃ (s1 : Store.t) (c : Comment),
    addComment int4 (Some {| id := "u1" |})
      {| input_text := "hello"; input_newsId := "n1" |} "c1" sample_store
    = (s1, Ok ()) ∧
    text c = "hello" ∧
    (("c1", c) ∈ getNewsComments sample_createdAt "n1" s1) ∧
    ∃ rows, getUserComments sample_createdAt (Some {| id := "u1" |}) s1 = Ok rows ∧
      ("c1", c) ∈ rows.
Proof.
  destruct (addComment int4 (Some {| id := "u1" |})
              {| input_text := "hello"; input_newsId := "n1" |} "c1" sample_store)
    as [s1 [[]|m]] eqn:Hadd; [|by vm_compute in Hadd].
  destruct (added_comment_is_listed int4 sample_createdAt {| id := "u1" |}
              {| input_text := "hello"; input_newsId := "n1" |} "c1"
              sample_store s1 sample_store_references_ok)
    as (c & Htext & Hnews & Huser); [by vm_compute|by vm_compute|exact Hadd|].
  exists s1, c. by split_and!.
Defined.

Lemma deleted_comment_is_not_listed_witness :
  ∃ s1 : Store.t,
    deleteComment int4 (Some {| id := "u2" |}) "c0" sample_store = (s1, Ok ()) ∧
    ("c0", {| text := "first"; newsInteractionId := "ni1";
              userInteractionId := "ui2" |})
      ∉ getNewsComments sample_createdAt "n1" s1.
Proof.
  destruct (deleteComment int4 (Some {| id := "u2" |}) "c0" sample_store)
    as [s1 [[]|m]] eqn:Hdel; [|by vm_compute in Hdel].
  exists s1. split; [reflexivity|].
  apply (deleted_comment_is_not_listed int4 sample_createdAt
           (Some {| id := "u2" |}) "c0" sample_store s1 _ Hdel).
Defined.

End CommentListingsWitnesses.

(** ** The section list of the editor *)
Section EditorSections.
Import Editor.

Lemma filter_index_after {A : Type} (index j : nat) (l : list A) :
  index < j → filter_index (λ i, negb (i =? index)) j l = l.
Proof.
  revert j. induction l as [|x l IH]; intros j Hj; [done|]. simpl.
  assert ((j =? index) = false) as -> by (apply Nat.eqb_neq; lia).
  simpl. by rewrite IH by lia.
Qed.

Lemma filter_index_splice_out {A : Type} (index j : nat) (l : list A) :
  j ≤ index →
  filter_index (λ i, negb (i =? index)) j l = splice_out (index - j) l.
Proof.
  unfold splice_out. revert j. induction l as [|x l IH]; intros j Hj.
  { by rewrite take_nil, drop_nil. }
  simpl. destruct (decide (j = index)) as [->|Hne].
  - rewrite Nat.eqb_refl, Nat.sub_diag. simpl. apply filter_index_after. lia.
  - assert ((j =? index) = false) as -> by by apply Nat.eqb_neq.
    simpl. rewrite (IH (S j)) by lia.
    by replace (index - j) with (S (index - S j)) by lia.
Qed.

Lemma removeSection_splice_out (index : nat) (secs : list Section) :
  removeSection index secs = splice_out index secs.
Proof.
  unfold removeSection. rewrite filter_index_splice_out by lia.
  by rewrite Nat.sub_0_r.
Qed.



(** X20.  [removeSection] with an index past the end changes nothing; with an
    index inside it drops that one section and keeps the others as they are,
    in their order and with their [order] fields. *)
Theorem removeSection_drops_one (index : nat) (secs : list Section) :
  (length secs ≤ index → removeSection index secs = secs) ∧
  (index < length secs →
   removeSection index secs = take index secs ++ drop (S index) secs ∧
   S (length (removeSection index secs)) = length secs).
Proof.
  rewrite removeSection_splice_out. unfold splice_out. split.
  - intros Hout. rewrite take_ge, drop_ge by lia. apply app_nil_r.
  - intros Hin. split; [done|].
    rewrite length_app, length_take, length_drop. lia.
Qed.

Lemma removeSection_drops_one_witness :
  id <$> removeSection 1
    (addSection "s2" text_type
       (addSection "s1" text_type (addSection "s0" text_type [])))
  = ["s0"; "s2"] ∧
  removeSection 7 (addSection "s0" text_type []) = addSection "s0" text_type [].
Proof.
  split.
  - rewrite (proj1 (proj2 (removeSection_drops_one 1
               (addSection "s2" text_type
                  (addSection "s1" text_type (addSection "s0" text_type []))))
               ltac:(simpl; lia))).
    reflexivity.
  - apply (proj1 (removeSection_drops_one 7 (addSection "s0" text_type []))).
    simpl. lia.
Defined.

(** X21.  The orders are not renumbered: when the orders are 0, 1, ..., n-1
    and a section other than the last is removed, the section added next gets
    the order n-1, which the last section still has, so two sections share an
    order. *)
Theorem remove_then_add_repeats_order (newId : string) (type : ContentType)
    (index : nat) (secs : list Section) :
  order <$> secs = seq 0 (length secs) →
  S index < length secs →
  ¬ NoDup (order <$> addSection newId type (removeSection index secs)).
Proof.
  intros Horders Hinner Hnd.
  rewrite removeSection_splice_out in Hnd. unfold addSection, splice_out in Hnd.
  rewrite fmap_app in Hnd. apply NoDup_app in Hnd as (_ & Hdisjoint & _).
  simpl in Hdisjoint.
  rewrite length_app, length_take, length_drop in Hdisjoint.
  replace (index `min` length secs + (length secs - S index))
    with (length secs - 1) in Hdisjoint by lia.
  apply (Hdisjoint (length secs - 1)); [|by apply list_elem_of_singleton].
  rewrite fmap_app, fmap_drop, Horders. apply elem_of_app. right.
  apply list_elem_of_lookup. exists (length secs - 1 - S index).
  rewrite lookup_drop, lookup_seq. lia.
Qed.

Lemma remove_then_add_repeats_order_witness :
  order <$> addSection "s3" text_type
    (removeSection 0
       (addSection "s2" text_type
          (addSection "s1" text_type (addSection "s0" text_type []))))
  = [1; 2; 2] ∧
  ¬ NoDup (order <$> addSection "s3" text_type
             (removeSection 0
                (addSection "s2" text_type
                   (addSection "s1" text_type (addSection "s0" text_type []))))).
Proof.
  split; [reflexivity|].
  apply (remove_then_add_repeats_order "s3" text_type 0
           (addSection "s2" text_type
              (addSection "s1" text_type (addSection "s0" text_type [])))).
  - reflexivity.
  - simpl. lia.
Defined.

(** X22.  [handleDragOver] with a section dragged from position [dragged]:
    the sections afterwards are the same sections in another arrangement, the
    dragged one at the position hovered over (when that is a position of the
    list), their [order] fields untouched; the dragged index becomes the
    hovered position, and hovering over the section's own position changes
    nothing in the list. *)
Theorem handleDragOver_moves_section (index dragged : nat) (st : State)
    (x : Section) :
  draggedIndex st = Some dragged →
  sections st !! dragged = Some x →
  ∃ st',
    handleDragOver index st = Some st' ∧
    sections st' ≡ₚ sections st ∧
    draggedIndex st' = Some index ∧
    isDragging st' = isDragging st ∧
    (index < length (sections st) → sections st' !! index = Some x) ∧
    (index = dragged → sections st' = sections st).
Proof.
  intros Hd Hx. unfold handleDragOver. rewrite Hd, Hx. eexists.
  split; [done|]. simpl. unfold splice_in, splice_out.
  pose proof (lookup_lt_Some _ _ _ Hx) as Hlt.
  set (rest := take dragged (sections st) ++ drop (S dragged) (sections st)).
  assert (length rest = length (sections st) - 1) as Hlen.
  { unfold rest. rewrite length_app, length_take, length_drop. lia. }
  split_and!; try done.
  - rewrite <- Permutation_middle, take_drop. unfold rest.
    rewrite (Permutation_middle (take dragged (sections st))
               (drop (S dragged) (sections st)) x).
    by rewrite take_drop_middle.
  - intros Hin. apply list_lookup_middle. rewrite length_take. lia.
  - intros ->. unfold rest.
    rewrite take_app_le by (rewrite length_take; lia).
    rewrite take_take, Nat.min_id.
    rewrite drop_app_ge by (rewrite length_take; lia).
    rewrite length_take, Nat.min_l, Nat.sub_diag by lia. simpl.
    by apply take_drop_middle.
Qed.

Lemma handleDragOver_moves_section_witness :
  ∃ st',
    handleDragOver 0
      (handleDragStart 2
         {| sections := addSection "s2" text_type
                          (addSection "s1" image_type
                             (addSection "s0" text_type []));
            isDragging := false; draggedIndex := None |}) = Some st' ∧
    id <$> sections st' = ["s2"; "s0"; "s1"] ∧
    order <$> sections st' = [2; 0; 1] ∧
    draggedIndex st' = Some 0.
Proof.
  destruct (handleDragOver_moves_section 0 2
              (handleDragStart 2
                 {| sections := addSection "s2" text_type
                                  (addSection "s1" image_type
                                     (addSection "s0" text_type []));
                    isDragging := false; draggedIndex := None |})
              {| id := "s2"; order := 2; title := None; isSeparator := false;
                 content := TextContent "" |} eq_refl eq_refl)
    as (st' & Hover & _ & Hindex & _).
  exists st'. split; [exact Hover|].
  vm_compute in Hover. injection Hover as <-. by split_and!.
Defined.

End EditorSections.
